(** * Non-stationary 10-armed bandit (test1.cpp): a shallow embedding

    The C++ program compares a sample-average agent with a constant
    step-size agent on a bandit whose true action values follow a random
    walk.  The embedding keeps the data of the program as it is:

    - [double] is IEEE 754 binary64, given by the executable
      specification [SpecFloat] of the standard library (precision 53,
      [emax] 1024, rounding to nearest even); every operation of the
      source rounds on its own (no fused multiply-add);
    - [vector<T>] is a list, indexed by an [int]; an index outside the
      vector is undefined behaviour;
    - [int] is a mathematical integer in the 32-bit signed range; leaving
      the range is undefined behaviour;
    - the global generator [gen] and the distribution objects that read it
      are an interface: a computation asks for draws ([Normal],
      [Bernoulli], [UniformInt]) in a definite order and a generator
      answers them while threading its own state;
    - the two files written at the end are kept as tables of numbers, not
      as text. *)

From Stdlib Require Import ZArith QArith Floats.SpecFloat.
From stdpp Require Import base tactics option list.

Local Open Scope Z_scope.

(** ** IEEE 754 binary64 *)

Module Double.

Definition prec : Z := 53.
Definition emax : Z := 1024.

Definition double : Type := spec_float.

Definition add : double -> double -> double := SFadd prec emax.
Definition sub : double -> double -> double := SFsub prec emax.
Definition mul : double -> double -> double := SFmul prec emax.
Definition div : double -> double -> double := SFdiv prec emax.
(** [x < y], [x <= y] and [x == y] of C++: false as soon as one side is a NaN. *)
Definition ltb : double -> double -> bool := SFltb.
Definition leb : double -> double -> bool := SFleb.
Definition eqb : double -> double -> bool := SFeqb.

(** Conversion of an [int] to [double]; exact below [2^53]. *)
Definition of_int (n : Z) : double := binary_normalize prec emax n 0 false.

(** The literals of the program. *)
Definition zero : double := S754_zero false.                              (* 0.0  *)
Definition one : double := S754_finite false 0x10000000000000 (-52).      (* 1.0  *)
Definition tenth : double := S754_finite false 0x1999999999999a (-56).    (* 0.1  *)
Definition hundredth : double := S754_finite false 0x147ae147ae147b (-59). (* 0.01 *)

Definition is_nan (x : double) : bool :=
  match x with S754_nan => true | _ => false end.

Definition is_finite (x : double) : bool :=
  match x with S754_zero _ | S754_finite _ _ _ => true | _ => false end.

(** A well-formed binary64 datum: the mantissa of a finite number is in
    canonical position. *)
Definition valid (x : double) : bool := valid_binary prec emax x.

(** The rational number a finite double stands for. *)
Definition to_Q (x : double) : option Q :=
  match x with
  | S754_zero _ => Some 0%Q
  | S754_finite s m e =>
      let v := match e with
               | Z0 => inject_Z (Zpos m)
               | Zpos p => inject_Z (Zpos m * 2 ^ Zpos p)
               | Zneg p => Qmake (Zpos m) (2 ^ p)
               end in
      Some (if s then Qopp v else v)
  | _ => None
  end.

End Double.

Export Double(double).

(** ** Vectors and machine integers *)

Definition INT_MAX : Z := 2147483647.

(** [v[i]] for reading. *)
Definition vec_get {A : Type} (v : list A) (i : Z) : option A :=
  if bool_decide (0 <= i) then v !! Z.to_nat i else None.

(** [v[i] = x]. *)
Definition vec_set {A : Type} (v : list A) (i : Z) (x : A) : option (list A) :=
  if bool_decide (0 <= i < Z.of_nat (length v))
  then Some (<[Z.to_nat i := x]> v)
  else None.

(** [std::fill(v.begin(), v.end(), x)]. *)
Definition fill {A : Type} (v : list A) (x : A) : list A :=
  replicate (length v) x.

(** [std::max_element] with [operator<]: the scan keeps the position of the
    largest element seen so far and moves it only on a strict increase. *)
Fixpoint max_element_from (largest : nat) (vl : double) (i : nat)
    (rest : list double) : nat :=
  match rest with
  | [] => largest
  | x :: rest' =>
      if Double.ltb vl x
      then max_element_from i x (S i) rest'
      else max_element_from largest vl (S i) rest'
  end.

(** [std::distance(v.begin(), std::max_element(v.begin(), v.end()))]; on an
    empty range [max_element] returns [end], which is [begin]. *)
Definition max_element (v : list double) : Z :=
  match v with
  | [] => 0
  | x :: rest => Z.of_nat (max_element_from 0 x 1 rest)
  end.

(** ** Random draws

    The program reads randomness only through three distribution objects
    applied to the global generator [gen]: [normal_distribution<double>],
    [bernoulli_distribution] and [uniform_int_distribution<int>].  A draw
    names the distribution with its parameters; the type of the answer
    depends on the draw. *)

Inductive draw : Type :=
| Normal (mean stddev : double)
| Bernoulli (p : double)
| UniformInt (a b : Z).

Definition answer (d : draw) : Type :=
  match d with
  | Normal _ _ => double
  | Bernoulli _ => bool
  | UniformInt _ _ => Z
  end.

(** A computation that may ask for draws: it returns, runs into undefined
    behaviour, or asks for a draw and continues with the answer. *)
Inductive Rand (A : Type) : Type :=
| Ret (a : A)
| UB
| Draw (d : draw) (k : answer d -> Rand A).

Arguments Ret {A} a.
Arguments UB {A}.
Arguments Draw {A} d k.

Fixpoint bind {A B : Type} (m : Rand A) (f : A -> Rand B) : Rand B :=
  match m with
  | Ret a => f a
  | UB => UB
  | Draw d k => Draw d (fun x => bind (k x) f)
  end.

#[global] Instance Rand_ret : MRet Rand := @Ret.
#[global] Instance Rand_bind : MBind Rand := fun A B f m => bind m f.

(** One draw from the generator. *)
Definition sample_draw (d : draw) : Rand (answer d) := Draw d Ret.

(** A pure step that is undefined when it yields nothing. *)
Definition defined {A : Type} (o : option A) : Rand A :=
  match o with
  | Some a => Ret a
  | None => UB
  end.

(** [for (int i = start; ...; ++i) body], [n] iterations. *)
Fixpoint for_range {S : Type} (n : nat) (i : Z) (body : Z -> S -> Rand S)
    (s : S) : Rand S :=
  match n with
  | O => Ret s
  | Datatypes.S n' => s' ← body i s; for_range n' (i + 1) body s'
  end.

(** ** The bandit *)

Module Bandit.

(** [q_true]: the true action values.  The members [reward_noise] and
    [walk_noise] are fixed by the constructor to N(0, 1) and N(0, 0.01). *)
Record t : Type := Make { q_true : list double }.

Definition reward_noise : draw := Normal Double.zero Double.one.
Definition walk_noise : draw := Normal Double.zero Double.hundredth.

(** [Bandit()]: [q_true.resize(10, 0.0)]. *)
Definition new : t := {| q_true := replicate 10 Double.zero |}.

(** [for (auto& q : q_true) q += walk_noise(gen);] *)
Fixpoint walk (qs : list double) : Rand (list double) :=
  match qs with
  | [] => Ret []
  | q :: rest =>
      x ← sample_draw walk_noise;
      rest' ← walk rest;
      Ret (Double.add q x :: rest')
  end.

Definition random_walk (b : t) : Rand t :=
  qs ← walk (q_true b); Ret {| q_true := qs |}.

(** [return q_true[action] + reward_noise(gen);] *)
Definition get_reward (b : t) (action : Z) : Rand double :=
  q ← defined (vec_get (q_true b) action);
  x ← sample_draw reward_noise;
  Ret (Double.add q x).

Definition optimal_action (b : t) : Z := max_element (q_true b).

Definition reset (b : t) : t := {| q_true := fill (q_true b) Double.zero |}.

End Bandit.

(** ** Agents *)

Module Agent.

(** The base class: estimates [Q], [epsilon], and the parameter of the
    member [bern] (a [bernoulli_distribution] has no other state). *)
Record t : Type := Make { Q : list double; epsilon : double; bern : double }.

(** [Agent(double eps) : epsilon(eps), bern(1 - eps) { Q.resize(10, 0.0); }] *)
Definition new (eps : double) : t :=
  {| Q := replicate 10 Double.zero;
     epsilon := eps;
     bern := Double.sub Double.one eps |}.

(** [if (bern(gen)) { uniform_int_distribution<int> unif(0, 9); return unif(gen); }
     return distance(Q.begin(), max_element(Q.begin(), Q.end()));] *)
Definition choose_action (a : t) : Rand Z :=
  b ← sample_draw (Bernoulli (bern a));
  if (b : bool) then sample_draw (UniformInt 0 9)
  else Ret (max_element (Q a)).

Definition set_Q (a : t) (q : list double) : t :=
  {| Q := q; epsilon := epsilon a; bern := bern a |}.

(** [fill(Q.begin(), Q.end(), 0.0);] *)
Definition reset (a : t) : t := set_Q a (fill (Q a) Double.zero).

End Agent.

Module SampleAverageAgent.

Record t : Type := Make { base : Agent.t; counts : list Z }.

(** [SampleAverageAgent(double eps) : Agent(eps) { counts.resize(10, 0); }] *)
Definition new (eps : double) : t :=
  {| base := Agent.new eps; counts := replicate 10 0 |}.

(** [counts[action]++;
     Q[action] += (reward - Q[action]) / counts[action];]
    The division is by the count read back after the increment. *)
Definition update (action : Z) (reward : double) (s : t) : option t :=
  c ← vec_get (counts s) action;
  if bool_decide (c < INT_MAX) then
    counts' ← vec_set (counts s) action (c + 1);
    n ← vec_get counts' action;
    q ← vec_get (Agent.Q (base s)) action;
    Q' ← vec_set (Agent.Q (base s)) action
           (Double.add q (Double.div (Double.sub reward q) (Double.of_int n)));
    Some {| base := Agent.set_Q (base s) Q'; counts := counts' |}
  else None.

(** [Agent::reset(); fill(counts.begin(), counts.end(), 0);] *)
Definition reset (s : t) : t :=
  {| base := Agent.reset (base s); counts := fill (counts s) 0 |}.

End SampleAverageAgent.

Module ConstantStepSizeAgent.

Record t : Type := Make { base : Agent.t; alpha : double }.

(** [ConstantStepSizeAgent(double eps, double a) : Agent(eps), alpha(a) {}] *)
Definition new (eps a : double) : t :=
  {| base := Agent.new eps; alpha := a |}.

(** [Q[action] += alpha * (reward - Q[action]);] *)
Definition update (action : Z) (reward : double) (s : t) : option t :=
  q ← vec_get (Agent.Q (base s)) action;
  Q' ← vec_set (Agent.Q (base s)) action
         (Double.add q (Double.mul (alpha s) (Double.sub reward q)));
  Some {| base := Agent.set_Q (base s) Q'; alpha := alpha s |}.

(** [reset] is inherited from [Agent]. *)
Definition reset (s : t) : t :=
  {| base := Agent.reset (base s); alpha := alpha s |}.

End ConstantStepSizeAgent.

(** The virtual interface of [Agent]: what [run_exp] uses of an agent. *)
Class Learner (T : Type) : Type := {
  agent_base : T -> Agent.t;
  agent_update : Z -> double -> T -> option T;
  agent_reset : T -> T
}.

#[global] Instance SampleAverage_Learner : Learner SampleAverageAgent.t := {|
  agent_base := SampleAverageAgent.base;
  agent_update := SampleAverageAgent.update;
  agent_reset := SampleAverageAgent.reset
|}.

#[global] Instance ConstantStepSize_Learner : Learner ConstantStepSizeAgent.t := {|
  agent_base := ConstantStepSizeAgent.base;
  agent_update := ConstantStepSizeAgent.update;
  agent_reset := ConstantStepSizeAgent.reset
|}.

(** ** The experiment *)

(** [v[i] += x]. *)
Definition vec_add (v : list double) (i : Z) (x : double) : option (list double) :=
  y ← vec_get v i; vec_set v i (Double.add y x).

(** The conversion of [sa_action == optimal_action] to [double]. *)
Definition hit (action optimal_action : Z) : double :=
  Double.of_int (if Z.eqb action optimal_action then 1 else 0).

(** What one agent does in one time step, with its two accumulators:
    [int a = agent.choose_action();
     double r = bandit.get_reward(a);
     agent.update(a, r);
     rewards[step] += r;
     optimal[step] += (a == optimal_action);] *)
Definition agent_turn {T : Type} `{Learner T} (b : Bandit.t)
    (optimal_action step : Z) (st : T * list double * list double) :
    Rand (T * list double * list double) :=
  let '(ag, rewards, optimal) := st in
  action ← Agent.choose_action (agent_base ag);
  reward ← Bandit.get_reward b action;
  ag' ← defined (agent_update action reward ag);
  rewards' ← defined (vec_add rewards step reward);
  optimal' ← defined (vec_add optimal step (hit action optimal_action));
  Ret (ag', rewards', optimal').

(** The local variables of [run_exp]. *)
Record exp_state : Type := ExpState {
  bandit : Bandit.t;
  sa_agent : SampleAverageAgent.t;
  css_agent : ConstantStepSizeAgent.t;
  sa_rewards : list double;
  css_rewards : list double;
  sa_optimal : list double;
  css_optimal : list double
}.

(** The body of the loop over [step]. *)
Definition step_body (step : Z) (s : exp_state) : Rand exp_state :=
  b ← Bandit.random_walk (bandit s);
  let optimal_action := Bandit.optimal_action b in
  '(sa, sa_r, sa_o) ← agent_turn b optimal_action step
                        (sa_agent s, sa_rewards s, sa_optimal s);
  '(css, css_r, css_o) ← agent_turn b optimal_action step
                           (css_agent s, css_rewards s, css_optimal s);
  Ret {| bandit := b; sa_agent := sa; css_agent := css;
         sa_rewards := sa_r; css_rewards := css_r;
         sa_optimal := sa_o; css_optimal := css_o |}.

(** [bandit.reset(); sa_agent.reset(); css_agent.reset();] *)
Definition reset_all (s : exp_state) : exp_state :=
  {| bandit := Bandit.reset (bandit s);
     sa_agent := agent_reset (sa_agent s);
     css_agent := agent_reset (css_agent s);
     sa_rewards := sa_rewards s; css_rewards := css_rewards s;
     sa_optimal := sa_optimal s; css_optimal := css_optimal s |}.

(** The body of the loop over [run]. *)
Definition run_body (num_steps : Z) (run : Z) (s : exp_state) : Rand exp_state :=
  for_range (Z.to_nat num_steps) 0 step_body (reset_all s).

(** The state before the first run. *)
Definition exp_init (num_steps : Z) : exp_state :=
  {| bandit := Bandit.new;
     sa_agent := SampleAverageAgent.new Double.tenth;
     css_agent := ConstantStepSizeAgent.new Double.tenth Double.tenth;
     sa_rewards := replicate (Z.to_nat num_steps) Double.zero;
     css_rewards := replicate (Z.to_nat num_steps) Double.zero;
     sa_optimal := replicate (Z.to_nat num_steps) Double.zero;
     css_optimal := replicate (Z.to_nat num_steps) Double.zero |}.

(** The two loops. *)
Definition simulate (num_runs num_steps : Z) : Rand exp_state :=
  for_range (Z.to_nat num_runs) 0 (run_body num_steps) (exp_init num_steps).

(** [transform(v.begin(), v.end(), v.begin(), [num_runs](double d) {return d / num_runs;});] *)
Definition average (num_runs : Z) (v : list double) : list double :=
  (fun d => Double.div d (Double.of_int num_runs)) <$> v.

(** [... {return d / num_runs * 100;});] *)
Definition percentage (num_runs : Z) (v : list double) : list double :=
  (fun d => Double.mul (Double.div d (Double.of_int num_runs)) (Double.of_int 100)) <$> v.

(** The rows [i, sa[i], css[i]] written to a file, for [i] from 0 to
    [num_steps - 1]; only the numbers are kept, not their decimal rendering. *)
Fixpoint rows (n : nat) (i : Z) (sa css : list double) : option (list (Z * double * double)) :=
  match n with
  | O => Some []
  | S n' =>
      x ← vec_get sa i; y ← vec_get css i;
      rest ← rows n' (i + 1) sa css;
      Some ((i, x, y) :: rest)
  end.

Record tables : Type := Tables {
  reward_file : list (Z * double * double);
  optimal_file : list (Z * double * double)
}.

Definition write_tables (num_runs num_steps : Z) (s : exp_state) : option tables :=
  let sa_r := average num_runs (sa_rewards s) in
  let css_r := average num_runs (css_rewards s) in
  let sa_o := percentage num_runs (sa_optimal s) in
  let css_o := percentage num_runs (css_optimal s) in
  r ← rows (Z.to_nat num_steps) 0 sa_r css_r;
  o ← rows (Z.to_nat num_steps) 0 sa_o css_o;
  Some {| reward_file := r; optimal_file := o |}.

Definition run_exp_with (num_runs num_steps : Z) : Rand tables :=
  s ← simulate num_runs num_steps;
  defined (write_tables num_runs num_steps s).

Definition num_runs : Z := 2000.
Definition num_steps : Z := 10000.

Definition run_exp : Rand tables := run_exp_with num_runs num_steps.

(** ** Generators

    A generator answers draws and moves to its next state.  [run] executes a
    computation against a generator, [trace] lists the draws it makes in the
    order in which they reach the generator. *)

Section Generator.

Context {G : Type}.
Variable sample : forall d : draw, G -> answer d * G.

Fixpoint run {A : Type} (m : Rand A) (g : G) : option (A * G) :=
  match m with
  | Ret a => Some (a, g)
  | UB => None
  | Draw d k => let '(x, g') := sample d g in run (k x) g'
  end.

Fixpoint trace {A : Type} (m : Rand A) (g : G) : list draw :=
  match m with
  | Ret _ | UB => []
  | Draw d k => d :: (let '(x, g') := sample d g in trace (k x) g')
  end.

(** What the C++ standard fixes about the answers of the distributions:
    a uniform integer lies between its bounds, and a Bernoulli draw of
    parameter 1 (or more) is true, of parameter 0 (or less) false. *)
Record lawful : Prop := {
  lawful_uniform a b g :
    a <= b -> a <= fst (sample (UniformInt a b) g) <= b;
  lawful_bernoulli_one p g :
    Double.leb Double.one p = true -> fst (sample (Bernoulli p) g) = true;
  lawful_bernoulli_zero p g :
    Double.leb p Double.zero = true -> fst (sample (Bernoulli p) g) = false
}.

End Generator.

(** A generator for tests: a tape of raw numbers, read from the left (an
    exhausted tape reads 0).  A normal draw turns the raw number [x] into
    [mean + stddev * x], a Bernoulli draw compares [(x mod 16) / 16] with
    its parameter, a uniform draw reduces [x] into the range. *)
Module Tape.

Definition t : Type := list Z.

Definition next (g : t) : Z * t :=
  match g with
  | [] => (0, [])
  | x :: g' => (x, g')
  end.

Definition sixteenth (x : Z) : double :=
  binary_normalize Double.prec Double.emax (x mod 16) (-4) false.

Definition sample (d : draw) (g : t) : answer d * t :=
  let '(x, g') := next g in
  match d with
  | Normal mean stddev =>
      (Double.add mean (Double.mul stddev (Double.of_int x)), g')
  | Bernoulli p => (Double.ltb (sixteenth x) p, g')
  | UniformInt a b => (a + x mod (b - a + 1), g')
  end.

End Tape.

(** ** Exact probabilities of the discrete draws

    A Bernoulli draw of parameter [p] is true with probability [p]; a uniform
    integer draw gives each value of its range the same probability.  [prob]
    is the probability that a computation ends with an outcome in [ev], an
    event on the draws made and the value returned; it is defined for
    computations that are free of undefined behaviour and make no draw from
    a continuous distribution. *)

Fixpoint sum_Q (l : list Q) : Q :=
  match l with
  | [] => 0%Q
  | q :: l' => (q + sum_Q l')%Q
  end.

Fixpoint prob {A : Type} (ev : list draw -> A -> bool) (tr : list draw)
    (m : Rand A) : option Q :=
  match m with
  | Ret a => Some (if ev tr a then 1%Q else 0%Q)
  | UB => None
  | Draw d k =>
      match d return (answer d -> Rand A) -> option Q with
      | Normal _ _ => fun _ => None
      | Bernoulli p => fun k =>
          q ← Double.to_Q p;
          if Qle_bool 0 q && Qle_bool q 1 then
            pt ← prob ev (tr ++ [d]) (k true);
            pf ← prob ev (tr ++ [d]) (k false);
            Some (q * pt + (1 - q) * pf)%Q
          else None
      | UniformInt a b => fun k =>
          if bool_decide (a <= b) then
            ps ← mapM (fun z => prob ev (tr ++ [d]) (k z)) (seqZ a (b - a + 1));
            Some (sum_Q ps / inject_Z (b - a + 1))%Q
          else None
      end k
  end.

(** The exploration branch of [choose_action] is the one that draws a
    uniform integer. *)
Definition explored {A : Type} (tr : list draw) (_ : A) : bool :=
  existsb (fun d => match d with UniformInt _ _ => true | _ => false end) tr.

(** ** Specifications *)

(** [r] is the position of the first maximum of [v]: nothing in [v] is
    strictly above [v[r]] and everything before [r] is strictly below. *)
Definition first_max (v : list double) (r : Z) : Prop :=
  exists x, vec_get v r = Some x /\
    (forall j y, vec_get v j = Some y -> Double.ltb x y = false) /\
    (forall j y, j < r -> vec_get v j = Some y -> Double.ltb y x = true).

Definition no_nan (v : list double) : Prop :=
  Forall (fun x => Double.is_nan x = false) v.

(** The number of arms, fixed by the constructors. *)
Definition k : Z := 10.

(** The states of a sample-average agent that the program can reach: the
    constructor, then [update] and [reset] in any order. *)
Inductive sa_reachable (eps : double) : SampleAverageAgent.t -> Prop :=
| sa_reachable_new :
    sa_reachable eps (SampleAverageAgent.new eps)
| sa_reachable_reset s :
    sa_reachable eps s -> sa_reachable eps (SampleAverageAgent.reset s)
| sa_reachable_update s action reward s' :
    sa_reachable eps s ->
    SampleAverageAgent.update action reward s = Some s' ->
    sa_reachable eps s'.

(** [update(action, r)] for each reward [r] of a list, in order. *)
Definition sa_updates (action : Z) (rewards : list double)
    (s : SampleAverageAgent.t) : option SampleAverageAgent.t :=
  foldl (fun o r => s' ← o; SampleAverageAgent.update action r s') (Some s) rewards.

(** The mean of a list of finite doubles, as a rational number. *)
Definition mean (l : list double) : option Q :=
  qs ← mapM Double.to_Q l;
  Some (sum_Q qs / inject_Z (Z.of_nat (length qs)))%Q.

(** After the updates [rewards] of [action] on a new agent, the estimate of
    [action] is exactly the mean of [rewards]. *)
Definition estimate_is_mean (action : Z) (rewards : list double) : Prop :=
  exists s x qx m,
    sa_updates action rewards (SampleAverageAgent.new Double.tenth) = Some s /\
    vec_get (Agent.Q (SampleAverageAgent.base s)) action = Some x /\
    Double.to_Q x = Some qx /\ mean rewards = Some m /\ Qeq qx m.

(** The vectors of an agent have [k] entries. *)
Definition sa_shape (s : SampleAverageAgent.t) : Prop :=
  Z.of_nat (length (Agent.Q (SampleAverageAgent.base s))) = k /\
  Z.of_nat (length (SampleAverageAgent.counts s)) = k.

Definition css_shape (s : ConstantStepSizeAgent.t) : Prop :=
  Z.of_nat (length (Agent.Q (ConstantStepSizeAgent.base s))) = k.

(** Two generators, each in one of its states, answer alike: related states
    give the same answer to every draw and move to related states.  Two
    copies of one engine started from one seed are related by equality. *)
Definition answers_agree {G1 G2 : Type}
    (sample1 : forall d : draw, G1 -> answer d * G1)
    (sample2 : forall d : draw, G2 -> answer d * G2)
    (same : G1 -> G2 -> Prop) : Prop :=
  forall d g1 g2, same g1 g2 ->
    fst (sample1 d g1) = fst (sample2 d g2) /\
    same (snd (sample1 d g1)) (snd (sample2 d g2)).

(** [m], run from generator state [g], makes the draws [tr] in this order,
    returns [a] and leaves the generator in state [g']. *)
Definition runs_to {G A : Type} (sample : forall d : draw, G -> answer d * G)
    (m : Rand A) (g : G) (tr : list draw) (a : A) (g' : G) : Prop :=
  run sample m g = Some (a, g') /\ trace sample m g = tr.

(** The parameter of [bern] in both agents of the experiment: [1 - 0.1]. *)
Definition bern_p : double := Double.sub Double.one Double.tenth.

(** The draws of one agent in one time step: the Bernoulli draw of
    [choose_action], its uniform draw if any, the noise of the reward. *)
Definition turn_draws (tr : list draw) : Prop :=
  tr = [Bernoulli bern_p; Bandit.reward_noise] \/
  tr = [Bernoulli bern_p; UniformInt 0 9; Bandit.reward_noise].

(** The draws of one time step: the walk of the [k] means, the turn of the
    sample-average agent, the turn of the constant step-size agent. *)
Definition step_draws (tr : list draw) : Prop :=
  exists sa css,
    tr = replicate (Z.to_nat k) Bandit.walk_noise ++ sa ++ css /\
    turn_draws sa /\ turn_draws css.

(** [x] is a count of hits between 0 and [n], as a double. *)
Definition hits_upto (n : Z) (x : double) : Prop :=
  exists h, 0 <= h <= n /\ x = Double.of_int h.

(** The shape of the state of [run_exp] for [T] time steps. *)
Record exp_ok (T : Z) (s : exp_state) : Prop := ExpOk {
  ok_bandit : Z.of_nat (length (Bandit.q_true (bandit s))) = k;
  ok_sa : sa_shape (sa_agent s);
  ok_css : css_shape (css_agent s);
  ok_sa_bern : Agent.bern (SampleAverageAgent.base (sa_agent s)) = bern_p;
  ok_css_bern : Agent.bern (ConstantStepSizeAgent.base (css_agent s)) = bern_p;
  ok_sa_rewards : Z.of_nat (length (sa_rewards s)) = T;
  ok_css_rewards : Z.of_nat (length (css_rewards s)) = T;
  ok_sa_optimal : Z.of_nat (length (sa_optimal s)) = T;
  ok_css_optimal : Z.of_nat (length (css_optimal s)) = T
}.

(** Between two runs, after [n] runs: every hit accumulator holds a count
    of at most [n]. *)
Definition exp_inv (T n : Z) (s : exp_state) : Prop :=
  exp_ok T s /\
  Forall (hits_upto n) (sa_optimal s) /\ Forall (hits_upto n) (css_optimal s).

(** Inside run [n], before time step [i]: no count of the sample-average
    agent exceeds [i]; the hit accumulators of the steps already taken hold
    at most [n + 1], the others at most [n]. *)
Definition run_inv (T n i : Z) (s : exp_state) : Prop :=
  exp_ok T s /\
  Forall (fun c => 0 <= c <= i) (SampleAverageAgent.counts (sa_agent s)) /\
  (forall j x, vec_get (sa_optimal s) j = Some x ->
     hits_upto (if Z.ltb j i then n + 1 else n) x) /\
  (forall j x, vec_get (css_optimal s) j = Some x ->
     hits_upto (if Z.ltb j i then n + 1 else n) x).

(** [R] runs that each add the reward [v] at time step [t]:
    [rewards[t] += v], [R] times, on the zeroed accumulator. *)
Definition accumulate_constant (R T t : Z) (v : double) : option (list double) :=
  Nat.iter (Z.to_nat R) (fun o => acc ← o; vec_add acc t v)
    (Some (replicate (Z.to_nat T) Double.zero)).

(** [v + ... + v], [n] terms added from the left to 0.0. *)
Definition sum_constant (n : nat) (v : double) : double :=
  Nat.iter n (fun x => Double.add x v) Double.zero.

(** The averaged table gives back the constant [v] at [t]. *)
Definition average_recovers (R T t : Z) (v : double) : Prop :=
  exists acc, accumulate_constant R T t v = Some acc /\
    vec_get (average R acc) t = Some v.

(** A percentage of the hit table for [h] hits in [R] runs. *)
Definition percent (R h : Z) : double :=
  Double.mul (Double.div (Double.of_int h) (Double.of_int R)) (Double.of_int 100).

(** Equality of doubles as data (same sign, mantissa and exponent). *)
Definition same_double (x y : double) : bool :=
  match x, y with
  | S754_zero s, S754_zero s' => Bool.eqb s s'
  | S754_infinity s, S754_infinity s' => Bool.eqb s s'
  | S754_nan, S754_nan => true
  | S754_finite s m e, S754_finite s' m' e' =>
      Bool.eqb s s' && Pos.eqb m m' && Z.eqb e e'
  | _, _ => false
  end.

(** Adding a hit or a miss to a count of [h] hits is exact. *)
Definition hit_check (h : Z) : bool :=
  same_double (Double.add (Double.of_int h) (Double.of_int 1)) (Double.of_int (h + 1)) &&
  same_double (Double.add (Double.of_int h) (Double.of_int 0)) (Double.of_int h).

(** The percentage for [h] hits lies between 0 and 100. *)
Definition percent_check (h : Z) : bool :=
  Double.leb Double.zero (percent num_runs h) &&
  Double.leb (percent num_runs h) (Double.of_int 100).

(** The draws of one run of [T] time steps. *)
Definition run_draws (T : Z) (tr : list draw) : Prop :=
  exists chunks,
    tr = concat chunks /\ length chunks = Z.to_nat T /\ Forall step_draws chunks.

(** ** Further specifications *)

(** The answers of a generator to [n] successive draws of one kind. *)
Fixpoint draw_many {G : Type} (sample : forall d : draw, G -> answer d * G)
    (d : draw) (n : nat) (g : G) : list (answer d) * G :=
  match n with
  | O => ([], g)
  | S n' =>
      let '(x, g1) := sample d g in
      let '(xs, g2) := draw_many sample d n' g1 in
      (x :: xs, g2)
  end.


(** [update(action, reward)] for each pair of a list, in order. *)
Definition sa_run (us : list (Z * double)) (s : SampleAverageAgent.t) :
    option SampleAverageAgent.t :=
  foldl (fun o u => s' ← o; SampleAverageAgent.update (fst u) (snd u) s') (Some s) us.

(** The sum of the counts. *)
Definition total (l : list Z) : Z := foldr Z.add 0 l.

(** How many updates of a list are updates of [action]. *)
Definition occurrences (action : Z) (us : list (Z * double)) : Z :=
  Z.of_nat (length (filter (fun u => fst u = action) us)).

(** The kinds of draws, and how many draws of a kind a list holds. *)
Definition is_normal (d : draw) : bool :=
  match d with Normal _ _ => true | _ => false end.

Definition is_bernoulli (d : draw) : bool :=
  match d with Bernoulli _ => true | _ => false end.

Definition is_uniform (d : draw) : bool :=
  match d with UniformInt _ _ => true | _ => false end.

Definition count_draws (f : draw -> bool) (tr : list draw) : Z :=
  Z.of_nat (length (List.filter f tr)).

(** The event that [choose_action] returns [x]. *)
Definition returns (x : Z) (_ : list draw) (y : Z) : bool := Z.eqb y x.

(** The percentage grows with the number of hits. *)
Definition percent_step_check (h : Z) : bool :=
  Double.ltb (percent num_runs h) (percent num_runs (h + 1)).

(** * Properties *)

(** ** Vectors *)

Lemma vec_get_Some {A} (v : list A) i x :
  vec_get v i = Some x <-> 0 <= i /\ v !! Z.to_nat i = Some x.
Proof.
  unfold vec_get. case_bool_decide; [tauto|].
  split; [discriminate|]. intros []. lia.
Qed.

Lemma vec_get_of_nat {A} (v : list A) (n : nat) : vec_get v (Z.of_nat n) = v !! n.
Proof.
  unfold vec_get. rewrite bool_decide_eq_true_2 by lia. by rewrite Nat2Z.id.
Qed.

Lemma vec_get_lt {A} (v : list A) i x :
  vec_get v i = Some x -> 0 <= i < Z.of_nat (length v).
Proof.
  rewrite vec_get_Some. intros [H0 H]. apply lookup_lt_Some in H. lia.
Qed.

Lemma vec_get_in_range {A} (v : list A) i :
  0 <= i < Z.of_nat (length v) -> exists x, vec_get v i = Some x.
Proof.
  intros H. unfold vec_get. rewrite bool_decide_eq_true_2 by lia.
  apply lookup_lt_is_Some. lia.
Qed.

Lemma vec_set_Some {A} (v : list A) i x :
  0 <= i < Z.of_nat (length v) -> vec_set v i x = Some (<[Z.to_nat i := x]> v).
Proof. intros H. unfold vec_set. by rewrite bool_decide_eq_true_2. Qed.

Lemma vec_set_inv {A} (v v' : list A) i x :
  vec_set v i x = Some v' ->
  0 <= i < Z.of_nat (length v) /\ v' = <[Z.to_nat i := x]> v.
Proof. unfold vec_set. case_bool_decide; [|discriminate]. by intros [= <-]. Qed.

Lemma vec_set_length {A} (v v' : list A) i x :
  vec_set v i x = Some v' -> length v' = length v.
Proof. intros [_ ->]%vec_set_inv. apply length_insert. Qed.

Lemma vec_get_set_eq {A} (v v' : list A) i x :
  vec_set v i x = Some v' -> vec_get v' i = Some x.
Proof.
  intros [Hi ->]%vec_set_inv. apply vec_get_Some. split; [lia|].
  apply list_lookup_insert_eq. lia.
Qed.

Lemma vec_get_set_ne {A} (v v' : list A) i j x :
  vec_set v i x = Some v' -> j <> i -> vec_get v' j = vec_get v j.
Proof.
  intros [Hi ->]%vec_set_inv Hne. unfold vec_get.
  case_bool_decide; [|done]. apply list_lookup_insert_ne. lia.
Qed.

Lemma vec_get_replicate {A} n (x y : A) i :
  vec_get (replicate n x) i = Some y -> y = x.
Proof. intros [_ H]%vec_get_Some. by apply lookup_replicate in H as [-> _]. Qed.

Lemma vec_get_replicate_in_range {A} n (x : A) i :
  0 <= i < Z.of_nat n -> vec_get (replicate n x) i = Some x.
Proof.
  intros H. apply vec_get_Some. split; [lia|].
  apply lookup_replicate. split; [done|lia].
Qed.

Lemma length_fill {A} (v : list A) x : length (fill v x) = length v.
Proof. apply length_replicate. Qed.

(** ** The order of doubles

    [SFcompare] orders the doubles that are not NaN as a chain: the cases
    below go through the constructors and the comparisons of exponents and
    mantissas. *)

Ltac order_cases :=
  repeat match goal with
  | |- context [Z.compare ?x ?y] => destruct (Z.compare_spec x y)
  | H : context [Z.compare ?x ?y] |- _ => destruct (Z.compare_spec x y)
  | |- context [Pos.compare ?x ?y] => destruct (Pos.compare_spec x y)
  | H : context [Pos.compare ?x ?y] |- _ => destruct (Pos.compare_spec x y)
  end.

Ltac order_finish :=
  intros; try congruence; try reflexivity;
  change (Pos.compare_cont Eq) with Pos.compare in *;
  order_cases; simpl in *; try congruence; try lia.

Ltac order_unfold :=
  unfold Double.ltb, Double.leb, Double.is_nan, SFltb, SFleb, SFcompare.

Ltac order_by_cases3 a b c :=
  order_unfold;
  destruct a as [[]|[]| |[] ? ?], b as [[]|[]| |[] ? ?], c as [[]|[]| |[] ? ?];
  order_finish.

Ltac order_by_cases2 a b :=
  order_unfold;
  destruct a as [[]|[]| |[] ? ?], b as [[]|[]| |[] ? ?];
  order_finish.

Lemma ltb_negtrans a b c :
  Double.is_nan b = false ->
  Double.ltb a c = true -> Double.ltb a b = false -> Double.ltb b c = true.
Proof. order_by_cases3 a b c. Qed.

Lemma ltb_asym a b : Double.ltb a b = true -> Double.ltb b a = false.
Proof. order_by_cases2 a b. Qed.

Lemma ltb_irrefl a : Double.ltb a a = false.
Proof.
  destruct (Double.ltb a a) eqn:E; [|done].
  apply ltb_asym in E as E'. congruence.
Qed.

Lemma ltb_leb_trans a b c :
  Double.ltb a b = true -> Double.leb b c = true -> Double.ltb a c = true.
Proof. order_by_cases3 a b c. Qed.

Lemma leb_ltb_false a b c :
  Double.leb a b = true -> Double.leb b c = true -> Double.ltb c a = false.
Proof. order_by_cases3 a b c. Qed.

(** ** [max_element] *)

Lemma max_element_from_spec rest : forall (v : list double) largest vl i,
  no_nan v ->
  v !! largest = Some vl -> (largest < i)%nat -> drop i v = rest ->
  (forall j y, (j < i)%nat -> v !! j = Some y -> Double.ltb vl y = false) ->
  (forall j y, (j < largest)%nat -> v !! j = Some y -> Double.ltb y vl = true) ->
  first_max v (Z.of_nat (max_element_from largest vl i rest)).
Proof.
  induction rest as [|x rest IH];
    intros v largest vl i Hnan Hl Hlt Hdrop Hmax Hfirst; simpl.
  - exists vl. rewrite vec_get_of_nat. split; [done|]. split.
    + intros j y [Hj0 Hj]%vec_get_Some.
      apply (Hmax (Z.to_nat j)); [|done].
      apply lookup_lt_Some in Hj.
      apply (f_equal length) in Hdrop. rewrite length_drop in Hdrop.
      simpl in Hdrop. lia.
    + intros j y Hjr [Hj0 Hj]%vec_get_Some.
      apply (Hfirst (Z.to_nat j)); [lia|done].
  - assert (Hi : v !! i = Some x).
    { rewrite <- (Nat.add_0_r i), <- lookup_drop, Hdrop. done. }
    assert (Hrest : drop (S i) v = rest).
    { rewrite (drop_S _ _ _ Hi) in Hdrop. by injection Hdrop. }
    assert (Hnn : forall j y, v !! j = Some y -> Double.is_nan y = false).
    { intros j y Hy. by eapply Forall_lookup_1 in Hnan. }
    destruct (Double.ltb vl x) eqn:Hcmp.
    + apply (IH v); try done; try lia.
      * intros j y Hj Hy. destruct (decide (j = i)) as [->|Hne].
        { rewrite Hi in Hy. injection Hy as <-. apply ltb_irrefl. }
        apply ltb_asym, ltb_negtrans with vl; [by eapply Hnn|done|].
        apply (Hmax j); [lia|done].
      * intros j y Hj Hy. apply ltb_negtrans with vl; [by eapply Hnn|done|].
        apply (Hmax j); [lia|done].
    + apply (IH v); try done; try lia.
      intros j y Hj Hy. destruct (decide (j = i)) as [->|Hne].
      * rewrite Hi in Hy. by injection Hy as <-.
      * apply (Hmax j); [lia|done].
Qed.

Lemma max_element_first_max v :
  v <> [] -> no_nan v -> first_max v (max_element v).
Proof.
  destruct v as [|x rest]; [done|]. intros _ Hnan. unfold max_element.
  apply max_element_from_spec; try done; try lia.
  intros j y Hj Hy. assert (j = 0%nat) as -> by lia.
  injection Hy as <-. apply ltb_irrefl.
Qed.

Lemma max_element_from_range rest : forall largest vl i,
  (largest < i)%nat ->
  (max_element_from largest vl i rest < i + length rest)%nat.
Proof.
  induction rest as [|x rest IH]; intros largest vl i Hlt; simpl; [lia|].
  destruct (Double.ltb vl x).
  - specialize (IH i x (S i)). lia.
  - specialize (IH largest vl (S i)). lia.
Qed.

Lemma max_element_range v :
  v <> [] -> 0 <= max_element v < Z.of_nat (length v).
Proof.
  destruct v as [|x rest]; [done|]. intros _. unfold max_element.
  pose proof (max_element_from_range rest 0%nat x 1%nat). simpl in *. lia.
Qed.

Lemma max_element_from_replicate n x largest i :
  max_element_from largest x i (replicate n x) = largest.
Proof.
  revert i. induction n as [|n IH]; intros i; simpl; [done|].
  by rewrite ltb_irrefl.
Qed.

Lemma max_element_replicate n x : max_element (replicate n x) = 0.
Proof.
  destruct n as [|n]; [done|]. simpl. by rewrite max_element_from_replicate.
Qed.

(** ** The bandit *)

(** C5. [optimal_action] returns the position of the first maximum of the
    true means: no mean is strictly larger and every mean at a lower index
    is strictly smaller (the means being numbers, not NaN, and the vector
    not empty); after [reset] it returns action 0, whatever the number of
    arms. *)
Theorem optimal_action_first_max (b : Bandit.t) :
  (Bandit.q_true b <> [] -> no_nan (Bandit.q_true b) ->
   first_max (Bandit.q_true b) (Bandit.optimal_action b)) /\
  Bandit.optimal_action (Bandit.reset b) = 0.
Proof.
  split.
  - apply max_element_first_max.
  - unfold Bandit.optimal_action, Bandit.reset, fill. simpl.
    apply max_element_replicate.
Qed.

Lemma optimal_action_first_max_witness :
  first_max [Double.zero; Double.one; Double.tenth; Double.one]
    (Bandit.optimal_action
       {| Bandit.q_true := [Double.zero; Double.one; Double.tenth; Double.one] |}).
Proof.
  apply (optimal_action_first_max
           {| Bandit.q_true := [Double.zero; Double.one; Double.tenth; Double.one] |}).
  - discriminate.
  - repeat constructor.
Defined.

(** ** Exact operations on binary64 *)

Lemma round_canonical s m e :
  bounded Double.prec Double.emax m e = true ->
  binary_round_aux Double.prec Double.emax s (Zpos m) e loc_Exact = S754_finite s m e.
Proof.
  unfold bounded, canonical_mantissa. intros H.
  apply andb_prop in H as [Hc He]. apply Z.eqb_eq in Hc.
  unfold binary_round_aux, shr_fexp. cbn [Zdigits2 shr_record_of_loc].
  rewrite Hc, Z.sub_diag. cbn [shr shr_m loc_of_shr_record round_nearest_even Zdigits2].
  rewrite Hc, Z.sub_diag. cbn [shr shr_m]. by rewrite He.
Qed.

Lemma digits2_pos_iter_xO p n :
  Zpos (digits2_pos (Pos.iter xO p n)) = Zpos (digits2_pos p) + Zpos n.
Proof.
  induction n as [|n IH] using Pos.peano_ind.
  - simpl. lia.
  - rewrite Pos.iter_succ. cbn [digits2_pos]. lia.
Qed.

(** An [int] below [2^53] converts to the double with the same value: the
    mantissa is the integer shifted into canonical position. *)
Lemma of_int_pos p :
  Zpos (digits2_pos p) < 53 ->
  Double.of_int (Zpos p) =
    S754_finite false (Pos.iter xO p (Z.to_pos (53 - Zpos (digits2_pos p))))
      (Zpos (digits2_pos p) - 53).
Proof.
  intros Hd. unfold Double.of_int, binary_normalize, binary_round, shl_align.
  set (d := Zpos (digits2_pos p)) in *.
  unfold fexp, emin, Double.prec, Double.emax.
  replace (Z.max (d + 0 - 53) (3 - 1024 - 53) - 0) with (Z.neg (Z.to_pos (53 - d))) by lia.
  replace (Z.max (d + 0 - 53) (3 - 1024 - 53)) with (d - 53) by lia.
  apply round_canonical. unfold bounded, canonical_mantissa.
  rewrite digits2_pos_iter_xO. fold d.
  unfold fexp, emin, Double.prec, Double.emax.
  apply andb_true_intro. split; [apply Z.eqb_eq|apply Z.leb_le]; lia.
Qed.

Lemma digits2_pos_le p n : Zpos p < 2 ^ n -> 0 <= n -> Zpos (digits2_pos p) <= n.
Proof.
  revert n. induction p as [p IH|p IH|]; intros n Hp Hn; cbn [digits2_pos].
  - assert (n <> 0) by (intros ->; simpl in Hp; lia).
    specialize (IH (n - 1)). replace n with (Z.succ (n - 1)) in Hp by lia.
    rewrite Z.pow_succ_r in Hp by lia. lia.
  - assert (n <> 0) by (intros ->; simpl in Hp; lia).
    specialize (IH (n - 1)). replace n with (Z.succ (n - 1)) in Hp by lia.
    rewrite Z.pow_succ_r in Hp by lia. lia.
  - assert (n <> 0) by (intros ->; simpl in Hp; lia). lia.
Qed.

(** The count of an action, at least 1 and an [int], is never a zero
    divisor. *)
Lemma of_int_count n :
  1 <= n <= INT_MAX ->
  exists m e, Double.of_int n = S754_finite false m e.
Proof.
  intros Hn. destruct n as [|p|p]; try lia.
  assert (Zpos (digits2_pos p) <= 31).
  { apply digits2_pos_le; [|lia]. unfold INT_MAX in Hn. change (2 ^ 31) with 2147483648. lia. }
  rewrite of_int_pos by lia. eauto.
Qed.


Lemma div_eucl_exact a b q : 0 < b -> a = q * b -> Z.div_eucl a b = (q, 0).
Proof.
  intros Hb ->. pose proof (Z.div_mul q b ltac:(lia)) as Hd.
  pose proof (Z_mod_mult q b) as Hm. unfold Z.div, Z.modulo in *.
  destruct (Z.div_eucl (q * b) b). simpl in *. congruence.
Qed.

(** Division by 1.0 is exact. *)
Lemma div_one x : Double.valid x = true -> Double.div x Double.one = x.
Proof.
  destruct x as [[]|[]| |s m e]; try reflexivity.
  intros Hv. unfold Double.valid, valid_binary in Hv.
  pose proof Hv as Hb. unfold bounded, canonical_mantissa in Hb.
  apply andb_prop in Hb as [Hc He]. apply Z.eqb_eq in Hc. apply Z.leb_le in He.
  unfold fexp, emin, Double.prec, Double.emax in *.
  unfold Double.div, Double.one, SFdiv, SFdiv_core_binary, Zdigits2.
  change (Z.pos (digits2_pos 4503599627370496)) with 53.
  set (d := Z.pos (digits2_pos m)) in *.
  unfold fexp, emin, Double.prec, Double.emax.
  destruct (decide (e = -1074)) as [->|Hne].
  - replace (Z.min (Z.max (d + -1074 - (53 + -52) - 53) (3 - 1024 - 53)) (-1074 - -52))
      with (-1074) by lia.
    change (-1074 - -52 - -1074) with 52.
    rewrite (div_eucl_exact _ _ (Z.pos m));
      [|lia|cbv iota; rewrite Z.shiftl_mul_pow2 by lia; reflexivity].
    change (new_location 4503599627370496 0) with loc_Exact.
    rewrite round_canonical by done. by destruct s.
  - replace (Z.min (Z.max (d + e - (53 + -52) - 53) (3 - 1024 - 53)) (e - -52))
      with (e - 1) by lia.
    replace (e - -52 - (e - 1)) with 53 by lia.
    rewrite (div_eucl_exact _ _ (Z.pos m~0));
      [|lia|cbv iota; rewrite Z.shiftl_mul_pow2 by lia;
            change (2 ^ 53) with 9007199254740992; lia].
    change (new_location 4503599627370496 0) with loc_Exact.
    unfold binary_round_aux, shr_fexp. cbn [Zdigits2 digits2_pos shr_record_of_loc].
    rewrite Pos2Z.inj_succ. fold d.
    unfold fexp, emin, Double.prec, Double.emax.
    replace (Z.max (Z.succ d + (e - 1) - 53) (3 - 1024 - 53) - (e - 1)) with 1 by lia.
    cbn [shr SpecFloat.iter_pos shr_1 shr_m loc_of_shr_record round_nearest_even
         Zdigits2 orb].
    replace (e - 1 + 1) with e by lia.
    fold d. replace (Z.max (d + e - 53) (3 - 1024 - 53) - e) with 0 by lia.
    cbn [shr shr_m].
    replace (e <=? 1024 - 53) with true by (symmetry; apply Z.leb_le; lia).
    by destruct s.
Qed.

Lemma sub_zero x : Double.sub x Double.zero = x.
Proof. by destruct x as [[]|[]| |[] m e]. Qed.

(** [0.0 + x] is [x], except that [-0.0] becomes [0.0]. *)
Lemma add_zero_l x :
  Double.add Double.zero x = x \/ (x = S754_zero true /\ Double.add Double.zero x = Double.zero).
Proof. destruct x as [[]|[]| |[] m e]; auto. Qed.

(** As numbers, [0.0 + x == x]. *)
Lemma eqb_refl x : Double.is_nan x = false -> Double.eqb x x = true.
Proof.
  unfold Double.eqb, SFeqb, SFcompare.
  destruct x as [[]|[]| |[] m e]; try done; intros _;
    by rewrite Z.compare_refl, Pos.compare_cont_refl.
Qed.

Lemma add_zero_l_eqb x :
  Double.is_nan x = false -> Double.eqb (Double.add Double.zero x) x = true.
Proof.
  intros Hx. destruct (add_zero_l x) as [->|[-> ->]]; [by apply eqb_refl|done].
Qed.

Lemma sub_diag_finite s m e :
  Double.sub (S754_finite s m e) (S754_finite s m e) = Double.zero.
Proof.
  unfold Double.sub, SFsub. by rewrite Z.sub_diag.
Qed.

(** ** Agents *)

Section Update.

Import SampleAverageAgent.

Lemma sa_update_defined action reward s c q :
  vec_get (counts s) action = Some c -> c < INT_MAX ->
  vec_get (Agent.Q (base s)) action = Some q ->
  exists counts' Q',
    vec_set (counts s) action (c + 1) = Some counts' /\
    vec_set (Agent.Q (base s)) action
      (Double.add q (Double.div (Double.sub reward q) (Double.of_int (c + 1)))) = Some Q' /\
    update action reward s =
      Some {| base := Agent.set_Q (base s) Q'; counts := counts' |}.
Proof.
  intros Hc Hlt Hq. unfold update. rewrite Hc. simpl.
  rewrite bool_decide_eq_true_2 by done.
  apply vec_get_lt in Hc as Hr. apply vec_get_lt in Hq as Hr'.
  rewrite (vec_set_Some _ _ _ Hr). simpl.
  rewrite (vec_get_set_eq _ _ _ _ (vec_set_Some _ _ (c + 1) Hr)). simpl.
  rewrite Hq. simpl. rewrite (vec_set_Some _ _ _ Hr'). simpl.
  eauto.
Qed.

Lemma sa_update_inv action reward s s' :
  update action reward s = Some s' ->
  exists c q counts' Q',
    vec_get (counts s) action = Some c /\ c < INT_MAX /\
    vec_get (Agent.Q (base s)) action = Some q /\
    vec_set (counts s) action (c + 1) = Some counts' /\
    vec_set (Agent.Q (base s)) action
      (Double.add q (Double.div (Double.sub reward q) (Double.of_int (c + 1)))) = Some Q' /\
    s' = {| base := Agent.set_Q (base s) Q'; counts := counts' |}.
Proof.
  unfold update. intros H.
  destruct (vec_get (counts s) action) as [c|] eqn:Hc; [|done]. simpl in H.
  case_bool_decide; [|done].
  destruct (vec_set (counts s) action (c + 1)) as [counts'|] eqn:Hs; [|done].
  simpl in H. rewrite (vec_get_set_eq _ _ _ _ Hs) in H. simpl in H.
  destruct (vec_get (Agent.Q (base s)) action) as [q|] eqn:Hq; [|done].
  simpl in H.
  destruct (vec_set (Agent.Q (base s)) action _) as [Q'|] eqn:HQ; [|done].
  injection H as <-. eauto 10.
Qed.

End Update.

Lemma css_update_defined action reward s q :
  vec_get (Agent.Q (ConstantStepSizeAgent.base s)) action = Some q ->
  exists Q',
    vec_set (Agent.Q (ConstantStepSizeAgent.base s)) action
      (Double.add q (Double.mul (ConstantStepSizeAgent.alpha s) (Double.sub reward q))) = Some Q' /\
    ConstantStepSizeAgent.update action reward s =
      Some {| ConstantStepSizeAgent.base := Agent.set_Q (ConstantStepSizeAgent.base s) Q';
              ConstantStepSizeAgent.alpha := ConstantStepSizeAgent.alpha s |}.
Proof.
  intros Hq. unfold ConstantStepSizeAgent.update. rewrite Hq. simpl.
  apply vec_get_lt in Hq as Hr. rewrite (vec_set_Some _ _ _ Hr). simpl. eauto.
Qed.

(** C9. [update(a, r)] with [a] in [0, k) is defined on either agent (for
    the sample-average agent, as long as the count of [a] can be
    incremented) and changes the state at index [a] only: the estimates at
    the other indices, [epsilon], the parameter of [bern], [alpha] and the
    counts at the other indices are unchanged, and so are the sizes of the
    vectors. *)
Theorem update_frame (action : Z) (reward : double) :
  0 <= action < k ->
  (forall s, sa_shape s ->
     (forall c, vec_get (SampleAverageAgent.counts s) action = Some c -> c < INT_MAX) ->
     exists s', SampleAverageAgent.update action reward s = Some s' /\
       sa_shape s' /\
       Agent.epsilon (SampleAverageAgent.base s') = Agent.epsilon (SampleAverageAgent.base s) /\
       Agent.bern (SampleAverageAgent.base s') = Agent.bern (SampleAverageAgent.base s) /\
       forall j, j <> action ->
         vec_get (Agent.Q (SampleAverageAgent.base s')) j =
           vec_get (Agent.Q (SampleAverageAgent.base s)) j /\
         vec_get (SampleAverageAgent.counts s') j = vec_get (SampleAverageAgent.counts s) j) /\
  (forall s, css_shape s ->
     exists s', ConstantStepSizeAgent.update action reward s = Some s' /\
       css_shape s' /\
       ConstantStepSizeAgent.alpha s' = ConstantStepSizeAgent.alpha s /\
       Agent.epsilon (ConstantStepSizeAgent.base s') = Agent.epsilon (ConstantStepSizeAgent.base s) /\
       Agent.bern (ConstantStepSizeAgent.base s') = Agent.bern (ConstantStepSizeAgent.base s) /\
       forall j, j <> action ->
         vec_get (Agent.Q (ConstantStepSizeAgent.base s')) j =
           vec_get (Agent.Q (ConstantStepSizeAgent.base s)) j).
Proof.
  intros Ha. split.
  - intros s [HQ Hc] Hmax.
    destruct (vec_get_in_range (SampleAverageAgent.counts s) action) as [c Hgc]; [lia|].
    destruct (vec_get_in_range (Agent.Q (SampleAverageAgent.base s)) action) as [q Hgq]; [lia|].
    destruct (sa_update_defined action reward s c q) as (counts' & Q' & Hsc & HsQ & ->);
      auto.
    eexists. split; [done|]. unfold sa_shape. simpl.
    rewrite (vec_set_length _ _ _ _ Hsc), (vec_set_length _ _ _ _ HsQ).
    repeat split; try done.
    + by apply (vec_get_set_ne _ _ _ _ _ HsQ).
    + by apply (vec_get_set_ne _ _ _ _ _ Hsc).
  - intros s HQ.
    destruct (vec_get_in_range (Agent.Q (ConstantStepSizeAgent.base s)) action) as [q Hgq];
      [unfold css_shape in HQ; lia|].
    destruct (css_update_defined action reward s q) as (Q' & HsQ & ->); auto.
    eexists. split; [done|]. unfold css_shape in *. simpl.
    rewrite (vec_set_length _ _ _ _ HsQ).
    repeat split; try done.
    intros j Hj. by apply (vec_get_set_ne _ _ _ _ _ HsQ).
Qed.

Lemma update_frame_witness :
  exists s',
    SampleAverageAgent.update 2 Double.one (SampleAverageAgent.new Double.tenth) = Some s' /\
    vec_get (Agent.Q (SampleAverageAgent.base s')) 5 = Some Double.zero /\
    vec_get (SampleAverageAgent.counts s') 5 = Some 0.
Proof.
  destruct (update_frame 2 Double.one) as [Hsa _]; [done|].
  destruct (Hsa (SampleAverageAgent.new Double.tenth)) as (s' & Hu & _ & _ & _ & Hj);
    [done| |].
  { intros c Hc. vm_compute in Hc. injection Hc as <-. done. }
  exists s'. split; [exact Hu|].
  destruct (Hj 5) as [-> ->]; [done|]. split; reflexivity.
Defined.

(** C4. [ConstantStepSizeAgent::update(a, r)] replaces the estimate [q] of
    [a] by [q + alpha * (r - q)] in double arithmetic, for every step size
    (so for [0 < alpha <= 1]); on a zero estimate the result is the double
    product [alpha * r] itself, a product [-0.0] being stored as [0.0]: the
    new estimate [== alpha * r] whenever the product is a number. *)
Theorem css_update_estimate (action : Z) (reward : double)
    (s : ConstantStepSizeAgent.t) (q : double) :
  vec_get (Agent.Q (ConstantStepSizeAgent.base s)) action = Some q ->
  exists s' q',
    ConstantStepSizeAgent.update action reward s = Some s' /\
    vec_get (Agent.Q (ConstantStepSizeAgent.base s')) action = Some q' /\
    q' = Double.add q (Double.mul (ConstantStepSizeAgent.alpha s) (Double.sub reward q)) /\
    (q = Double.zero ->
     (q' = Double.mul (ConstantStepSizeAgent.alpha s) reward \/
      (Double.mul (ConstantStepSizeAgent.alpha s) reward = S754_zero true /\
       q' = Double.zero)) /\
     (Double.is_nan (Double.mul (ConstantStepSizeAgent.alpha s) reward) = false ->
      Double.eqb q' (Double.mul (ConstantStepSizeAgent.alpha s) reward) = true)).
Proof.
  intros Hq. destruct (css_update_defined action reward s q) as (Q' & HsQ & ->); auto.
  eexists _, _. split; [done|]. simpl. split; [by apply (vec_get_set_eq _ _ _ _ HsQ)|].
  split; [done|]. intros ->. rewrite sub_zero. split; [|apply add_zero_l_eqb].
  destruct (add_zero_l (Double.mul (ConstantStepSizeAgent.alpha s) reward)) as [->|[-> ->]];
    auto.
Qed.

Lemma css_update_estimate_witness :
  exists s' q',
    ConstantStepSizeAgent.update 3 Double.one
      (ConstantStepSizeAgent.new Double.tenth Double.tenth) = Some s' /\
    vec_get (Agent.Q (ConstantStepSizeAgent.base s')) 3 = Some q' /\
    q' = Double.tenth.
Proof.
  destruct (css_update_estimate 3 Double.one
              (ConstantStepSizeAgent.new Double.tenth Double.tenth) Double.zero)
    as (s' & q' & Hu & Hg & Hq & _); [reflexivity|].
  exists s', q'. repeat split; [exact Hu|exact Hg|].
  rewrite Hq. vm_compute. reflexivity.
Defined.

Lemma of_int_1 : Double.of_int 1 = Double.one.
Proof. reflexivity. Qed.

(** The estimate written by the first update of an action. *)
Lemma first_estimate r :
  Double.valid r = true ->
  Double.add Double.zero (Double.div (Double.sub r Double.zero) (Double.of_int 1)) =
    Double.add Double.zero r.
Proof. intros Hv. by rewrite sub_zero, of_int_1, div_one. Qed.

(** The estimate written by a later update with the reward seen so far. *)
Lemma same_estimate r n :
  Double.is_finite r = true -> 1 <= n <= INT_MAX ->
  let q := Double.add Double.zero r in
  Double.add q (Double.div (Double.sub r q) (Double.of_int n)) = q.
Proof.
  intros Hf Hn. destruct (of_int_count n Hn) as (m & e & ->).
  destruct r as [[]| | |s mr er]; try done.
  cbn [Double.add SFadd Double.zero]. rewrite sub_diag_finite. reflexivity.
Qed.

Lemma sa_new_shape eps : sa_shape (SampleAverageAgent.new eps).
Proof. done. Qed.

Lemma sa_updates_snoc action rs r s :
  sa_updates action (rs ++ [r]) s =
    (s' ← sa_updates action rs s; SampleAverageAgent.update action r s').
Proof. unfold sa_updates. by rewrite foldl_app. Qed.

(** Updates of one action with one finite reward: the count is the number
    of updates and the estimate stays at the reward. *)
Lemma sa_updates_constant eps action r (n : nat) :
  0 <= action < k -> Double.valid r = true -> Double.is_finite r = true ->
  Z.of_nat n <= INT_MAX ->
  exists s,
    sa_updates action (replicate n r) (SampleAverageAgent.new eps) = Some s /\
    vec_get (SampleAverageAgent.counts s) action = Some (Z.of_nat n) /\
    vec_get (Agent.Q (SampleAverageAgent.base s)) action =
      Some (if n is O then Double.zero else Double.add Double.zero r).
Proof.
  intros Ha Hv Hf. induction n as [|n IH]; intros Hn.
  - exists (SampleAverageAgent.new eps). unfold k in Ha. split; [done|].
    split; [apply (vec_get_replicate_in_range 10 0)
           |apply (vec_get_replicate_in_range 10 Double.zero)]; lia.
  - destruct IH as (s & Hs & Hc & Hq); [lia|].
    rewrite replicate_S_end, sa_updates_snoc, Hs. simpl.
    destruct (sa_update_defined action r s _ _ Hc ltac:(lia) Hq)
      as (counts' & Q' & Hsc & HsQ & ->).
    eexists. split; [done|]. simpl.
    rewrite (vec_get_set_eq _ _ _ _ Hsc), (vec_get_set_eq _ _ _ _ HsQ).
    split; [f_equal; lia|]. f_equal.
    destruct n as [|n].
    + by apply first_estimate.
    + apply same_estimate; [done|lia].
Qed.

(** C3 (amended). [SampleAverageAgent::update(a, r)] increments the count
    of [a] and then replaces the estimate [q] of [a] by
    [q + (r - q) / count[a]], computed in double arithmetic with the count
    just written.  After one update of a new agent the estimate is [r]
    itself, and after any number of updates with one finite reward [r] it
    is still [r] (a reward [-0.0] being stored as [0.0]).  For rewards that
    differ the estimate is what these rounded steps give, which need not be
    the mean of the rewards. *)
Theorem sa_update_estimate (action : Z) :
  (forall reward s c q,
     vec_get (SampleAverageAgent.counts s) action = Some c -> c < INT_MAX ->
     vec_get (Agent.Q (SampleAverageAgent.base s)) action = Some q ->
     exists s',
       SampleAverageAgent.update action reward s = Some s' /\
       vec_get (SampleAverageAgent.counts s') action = Some (c + 1) /\
       vec_get (Agent.Q (SampleAverageAgent.base s')) action =
         Some (Double.add q (Double.div (Double.sub reward q) (Double.of_int (c + 1))))) /\
  (forall eps r, 0 <= action < k -> Double.valid r = true ->
     exists s x,
       SampleAverageAgent.update action r (SampleAverageAgent.new eps) = Some s /\
       vec_get (Agent.Q (SampleAverageAgent.base s)) action = Some x /\
       (x = r \/ (r = S754_zero true /\ x = Double.zero)) /\
       (Double.is_nan r = false -> Double.eqb x r = true)) /\
  (forall eps r (n : nat), 0 <= action < k ->
     Double.valid r = true -> Double.is_finite r = true ->
     (1 <= n)%nat -> Z.of_nat n <= INT_MAX ->
     exists s x,
       sa_updates action (replicate n r) (SampleAverageAgent.new eps) = Some s /\
       vec_get (Agent.Q (SampleAverageAgent.base s)) action = Some x /\
       (x = r \/ (r = S754_zero true /\ x = Double.zero)) /\
       Double.eqb x r = true).
Proof.
  split; [|split].
  - intros reward s c q Hc Hlt Hq.
    destruct (sa_update_defined action reward s c q) as (counts' & Q' & Hsc & HsQ & ->);
      auto.
    eexists. split; [done|]. simpl.
    by rewrite (vec_get_set_eq _ _ _ _ Hsc), (vec_get_set_eq _ _ _ _ HsQ).
  - intros eps r Ha Hv. unfold k in Ha.
    destruct (sa_update_defined action r (SampleAverageAgent.new eps) 0 Double.zero)
      as (counts' & Q' & Hsc & HsQ & ->).
    { apply (vec_get_replicate_in_range 10 0). lia. }
    { done. }
    { apply (vec_get_replicate_in_range 10 Double.zero). lia. }
    eexists _, _. split; [done|]. simpl.
    split; [by apply (vec_get_set_eq _ _ _ _ HsQ)|].
    change (0 + 1) with 1. rewrite first_estimate by done.
    split; [|apply add_zero_l_eqb].
    destruct (add_zero_l r) as [->|[-> ->]]; auto.
  - intros eps r n Ha Hv Hf Hn Hmax.
    destruct (sa_updates_constant eps action r n) as (s & Hs & _ & Hq); auto.
    exists s, (Double.add Double.zero r). split; [done|].
    destruct n as [|n]; [lia|]. split; [done|].
    split; [|apply add_zero_l_eqb; by destruct r].
    destruct (add_zero_l r) as [->|[-> ->]]; auto.
Qed.

Lemma sa_update_estimate_witness :
  exists s,
    sa_updates 3 (replicate 4 Double.tenth) (SampleAverageAgent.new Double.tenth) = Some s /\
    vec_get (Agent.Q (SampleAverageAgent.base s)) 3 = Some Double.tenth.
Proof.
  destruct (sa_update_estimate 3) as (_ & _ & H).
  destruct (H Double.tenth Double.tenth 4%nat) as (s & x & Hs & Hx & Hr & _);
    [done|reflexivity|reflexivity|lia|done|].
  exists s. split; [exact Hs|].
  destruct Hr as [->|[[=] _]]. exact Hx.
Defined.

(** The doubles 0.0, 1.0, 6.0, 1.0 have mean 2, but the four updates leave
    the estimate one unit in the last place below 2. *)
Lemma estimate_is_not_mean :
  ~ estimate_is_mean 0 [Double.of_int 0; Double.of_int 1; Double.of_int 6; Double.of_int 1].
Proof.
  intros (s & x & qx & m & Hs & Hx & Hqx & Hm & Heq).
  vm_compute in Hs. injection Hs as <-.
  vm_compute in Hx. injection Hx as <-.
  vm_compute in Hqx. injection Hqx as <-.
  vm_compute in Hm. injection Hm as <-.
  vm_compute in Heq. discriminate.
Qed.

Lemma sa_reachable_counts eps s :
  sa_reachable eps s ->
  sa_shape s /\ Forall (fun c => 0 <= c <= INT_MAX) (SampleAverageAgent.counts s).
Proof.
  induction 1 as [|s Hr [[HQ Hc] IH]|s action reward s' Hr [[HQ Hc] IH] Hu].
  - split; [done|]. apply Forall_replicate. done.
  - split.
    + unfold sa_shape, SampleAverageAgent.reset, Agent.reset. simpl.
      by rewrite !length_fill.
    + apply Forall_replicate. done.
  - apply sa_update_inv in Hu as (c & q & counts' & Q' & Hgc & Hlt & Hgq & Hsc & HsQ & ->).
    split.
    + unfold sa_shape. simpl.
      by rewrite (vec_set_length _ _ _ _ Hsc), (vec_set_length _ _ _ _ HsQ).
    + simpl. apply vec_set_inv in Hsc as [_ ->]. apply Forall_insert; [done|].
      apply vec_get_Some in Hgc as [_ Hgc].
      eapply Forall_lookup_1 in IH; [|exact Hgc]. simpl in IH. lia.
Qed.

(** C10. In every state that the constructor, [update] and [reset] can
    produce, all counts are non-negative (the constructor and [reset] write
    zeros, [update] adds one).  [update(a, r)] is defined whenever [a] is in
    [0, k) and the count of [a] can still be incremented, and the count it
    divides by is the incremented one: at least 1, and as a double a
    positive finite number, never a zero. *)
Theorem sa_update_divisor (eps : double) (s : SampleAverageAgent.t) :
  sa_reachable eps s ->
  SampleAverageAgent.counts (SampleAverageAgent.new eps) = replicate 10 0 /\
  SampleAverageAgent.counts (SampleAverageAgent.reset s) =
    replicate (length (SampleAverageAgent.counts s)) 0 /\
  Forall (fun c => 0 <= c) (SampleAverageAgent.counts s) /\
  forall action reward,
    (0 <= action < k ->
     (forall c, vec_get (SampleAverageAgent.counts s) action = Some c -> c < INT_MAX) ->
     is_Some (SampleAverageAgent.update action reward s)) /\
    (forall s', SampleAverageAgent.update action reward s = Some s' ->
     exists c n q m e,
       vec_get (SampleAverageAgent.counts s) action = Some c /\ n = c + 1 /\
       vec_get (SampleAverageAgent.counts s') action = Some n /\ 1 <= n /\
       Double.of_int n = S754_finite false m e /\
       vec_get (Agent.Q (SampleAverageAgent.base s)) action = Some q /\
       vec_get (Agent.Q (SampleAverageAgent.base s')) action =
         Some (Double.add q (Double.div (Double.sub reward q) (Double.of_int n)))).
Proof.
  intros [[HQ Hc] Hall]%sa_reachable_counts.
  split; [done|]. split; [done|]. split.
  { eapply Forall_impl; [exact Hall|]. simpl. lia. }
  intros action reward. split.
  - intros Ha Hmax.
    destruct (vec_get_in_range (SampleAverageAgent.counts s) action) as [c Hgc]; [lia|].
    destruct (vec_get_in_range (Agent.Q (SampleAverageAgent.base s)) action) as [q Hgq];
      [lia|].
    destruct (sa_update_defined action reward s c q) as (counts' & Q' & _ & _ & ->);
      eauto.
  - intros s' (c & q & counts' & Q' & Hgc & Hlt & Hgq & Hsc & HsQ & ->)%sa_update_inv.
    assert (0 <= c <= INT_MAX) as Hc0.
    { apply vec_get_Some in Hgc as [_ Hgc].
      by eapply Forall_lookup_1 in Hall; [|exact Hgc]. }
    destruct (of_int_count (c + 1)) as (m & e & Hne); [lia|].
    exists c, (c + 1), q, m, e. simpl.
    rewrite (vec_get_set_eq _ _ _ _ Hsc), (vec_get_set_eq _ _ _ _ HsQ).
    repeat split; auto; lia.
Qed.

Lemma sa_update_divisor_witness :
  Forall (fun c => 0 <= c) (SampleAverageAgent.counts (SampleAverageAgent.new Double.tenth)) /\
  is_Some (SampleAverageAgent.update 2 Double.one (SampleAverageAgent.new Double.tenth)).
Proof.
  destruct (sa_update_divisor Double.tenth (SampleAverageAgent.new Double.tenth))
    as (_ & _ & Hall & Hu); [constructor|].
  split; [exact Hall|].
  apply (Hu 2 Double.one); [done|].
  intros c Hc. vm_compute in Hc. injection Hc as <-. done.
Defined.

(** ** Running a computation *)

Section Run.

Context {G : Type}.
Variable sample : forall d : draw, G -> answer d * G.

Lemma run_bind {A B} (m : Rand A) (f : A -> Rand B) g :
  run sample (m ≫= f) g =
    match run sample m g with
    | Some (a, g') => run sample (f a) g'
    | None => None
    end.
Proof.
  unfold mbind, Rand_bind. revert g.
  induction m as [a| |d k IH]; intros g; simpl; try done.
  destruct (sample d g) as [x g']. apply IH.
Qed.

Lemma trace_bind {A B} (m : Rand A) (f : A -> Rand B) g :
  trace sample (m ≫= f) g =
    trace sample m g ++
    match run sample m g with
    | Some (a, g') => trace sample (f a) g'
    | None => []
    end.
Proof.
  unfold mbind, Rand_bind. revert g.
  induction m as [a| |d k IH]; intros g; simpl; try done.
  destruct (sample d g) as [x g']. f_equal. apply IH.
Qed.

Lemma run_defined {A} (o : option A) g :
  run sample (defined o) g = (fun a => (a, g)) <$> o.
Proof. by destruct o. Qed.

Lemma trace_defined {A} (o : option A) g : trace sample (defined o) g = [].
Proof. by destruct o. Qed.

(** [choose_action]: the value returned and the draws made. *)
Lemma run_choose_action a g :
  run sample (Agent.choose_action a) g =
    let '(b, g1) := sample (Bernoulli (Agent.bern a)) g in
    if (b : bool) then Some (sample (UniformInt 0 9) g1)
    else Some (max_element (Agent.Q a), g1).
Proof.
  unfold Agent.choose_action. rewrite run_bind. simpl.
  destruct (sample (Bernoulli (Agent.bern a)) g) as [[] g1]; simpl; [|done].
  by destruct (sample (UniformInt 0 9) g1).
Qed.

Lemma trace_choose_action a g :
  trace sample (Agent.choose_action a) g =
    if fst (sample (Bernoulli (Agent.bern a)) g)
    then [Bernoulli (Agent.bern a); UniformInt 0 9]
    else [Bernoulli (Agent.bern a)].
Proof.
  unfold Agent.choose_action. rewrite trace_bind. simpl.
  destruct (sample (Bernoulli (Agent.bern a)) g) as [[] g1]; simpl; [|done].
  by destruct (sample (UniformInt 0 9) g1).
Qed.

End Run.

(** ** The tape generator is lawful *)

Lemma sixteenth_cases x :
  Double.leb Double.zero (Tape.sixteenth x) = true /\
  Double.ltb (Tape.sixteenth x) Double.one = true.
Proof.
  unfold Tape.sixteenth. pose proof (Z.mod_pos_bound x 16 ltac:(lia)) as Hr.
  set (r := x mod 16) in *. clearbody r.
  assert (r = 0 \/ r = 1 \/ r = 2 \/ r = 3 \/ r = 4 \/ r = 5 \/ r = 6 \/ r = 7 \/
          r = 8 \/ r = 9 \/ r = 10 \/ r = 11 \/ r = 12 \/ r = 13 \/ r = 14 \/ r = 15)
    as Hc by lia.
  repeat (destruct Hc as [->|Hc]; [by vm_compute|]). subst r. by vm_compute.
Qed.

Lemma tape_lawful : lawful Tape.sample.
Proof.
  split.
  - intros a b g Hab. unfold Tape.sample. destruct (Tape.next g) as [x g']. simpl.
    pose proof (Z.mod_pos_bound x (b - a + 1) ltac:(lia)). lia.
  - intros p g Hp. unfold Tape.sample. destruct (Tape.next g) as [x g']. simpl.
    destruct (sixteenth_cases x) as [_ Hlt]. by apply ltb_leb_trans with Double.one.
  - intros p g Hp. unfold Tape.sample. destruct (Tape.next g) as [x g']. simpl.
    destruct (sixteenth_cases x) as [Hle _]. by apply leb_ltb_false with Double.zero.
Qed.

(** ** Exploration *)

Lemma prob_choose_action (a : Agent.t) (p : Q) :
  Double.to_Q (Agent.bern a) = Some p -> (0 <= p <= 1)%Q ->
  exists q, prob explored [] (Agent.choose_action a) = Some q /\ (q == p)%Q.
Proof.
  intros Hp [H0 H1]. unfold Agent.choose_action, sample_draw, mbind, Rand_bind.
  cbn [bind prob]. rewrite Hp. cbn [mbind option_bind].
  apply Qle_bool_iff in H0, H1. rewrite H0, H1. cbn [andb].
  match goal with
  | |- ex (fun q => (?X ≫= _) = _ /\ _) => change X with (Some (10 # 10))
  end.
  cbn [mbind option_bind explored existsb app orb].
  eexists. split; [reflexivity|].
  assert ((10 # 10) == 1)%Q as -> by reflexivity. ring.
Qed.

Section Explore.

Context {G : Type}.
Variable sample : forall d : draw, G -> answer d * G.
Hypothesis sample_lawful : lawful sample.

Lemma choose_action_explores (a : Agent.t) g :
  Double.leb Double.one (Agent.bern a) = true ->
  run sample (Agent.choose_action a) g =
    Some (sample (UniformInt 0 9) (snd (sample (Bernoulli (Agent.bern a)) g))) /\
  trace sample (Agent.choose_action a) g = [Bernoulli (Agent.bern a); UniformInt 0 9].
Proof.
  intros Hb. rewrite run_choose_action, trace_choose_action.
  pose proof (lawful_bernoulli_one sample sample_lawful _ g Hb) as Ht.
  destruct (sample (Bernoulli (Agent.bern a)) g) as [b g1]. simpl in *. by subst b.
Qed.

End Explore.

(** C1 (as the code has it).  The constructor gives [bern] the parameter
    [1 - eps]; [choose_action] returns a uniform action of [0, 9] when
    [bern] answers true and the position of the first largest estimate when
    it answers false.  So the exploration branch is taken with probability
    [1 - eps], not [eps].  With [eps = 0] the parameter is 1, the branch is
    taken with probability 1, and with every lawful generator
    [choose_action] returns the uniform draw whatever the estimates are. *)
Theorem choose_action_explores_with_complement (eps : double) :
  Agent.bern (Agent.new eps) = Double.sub Double.one eps /\
  (forall G (sample : forall d : draw, G -> answer d * G) est g,
     run sample (Agent.choose_action (Agent.set_Q (Agent.new eps) est)) g =
       let '(b, g1) := sample (Bernoulli (Double.sub Double.one eps)) g in
       if (b : bool) then Some (sample (UniformInt 0 9) g1)
       else Some (max_element est, g1)) /\
  (forall p, Double.to_Q (Double.sub Double.one eps) = Some p -> (0 <= p <= 1)%Q ->
     forall est, exists q,
       prob explored [] (Agent.choose_action (Agent.set_Q (Agent.new eps) est)) = Some q /\
       (q == p)%Q) /\
  (eps = Double.zero ->
     forall est, exists q,
       prob explored [] (Agent.choose_action (Agent.set_Q (Agent.new eps) est)) = Some q /\
       (q == 1)%Q) /\
  (eps = Double.zero ->
     forall G (sample : forall d : draw, G -> answer d * G), lawful sample ->
     forall est g,
       run sample (Agent.choose_action (Agent.set_Q (Agent.new eps) est)) g =
         Some (sample (UniformInt 0 9) (snd (sample (Bernoulli Double.one) g))) /\
       trace sample (Agent.choose_action (Agent.set_Q (Agent.new eps) est)) g =
         [Bernoulli Double.one; UniformInt 0 9]).
Proof.
  split; [done|]. split; [|split; [|split]].
  - intros G sample est g. apply run_choose_action.
  - intros p Hp Hr est. by apply prob_choose_action.
  - intros -> est.
    destruct (prob_choose_action (Agent.set_Q (Agent.new Double.zero) est)
                (4503599627370496 # 4503599627370496)) as (q & Hq & Heq);
      [reflexivity|split; discriminate|].
    exists q. split; [done|]. by rewrite Heq.
  - intros -> G sample Hl est g.
    apply (choose_action_explores sample Hl (Agent.set_Q (Agent.new Double.zero) est)).
    reflexivity.
Qed.

(** With [eps = 0], estimates whose maximum is at index 1, and a tape whose
    second number is 7, [choose_action] returns 7. *)
Lemma choose_action_explores_with_complement_witness :
  run Tape.sample
    (Agent.choose_action
       (Agent.set_Q (Agent.new Double.zero)
          [Double.zero; Double.one; Double.zero; Double.zero; Double.zero;
           Double.zero; Double.zero; Double.zero; Double.zero; Double.zero]))
    [0; 7] = Some (7, []) /\
  max_element [Double.zero; Double.one; Double.zero; Double.zero; Double.zero;
               Double.zero; Double.zero; Double.zero; Double.zero; Double.zero] = 1.
Proof.
  split; [|reflexivity].
  destruct (choose_action_explores_with_complement Double.zero) as (_ & _ & _ & _ & H).
  destruct (H eq_refl Tape.t Tape.sample tape_lawful
              [Double.zero; Double.one; Double.zero; Double.zero; Double.zero;
               Double.zero; Double.zero; Double.zero; Double.zero; Double.zero]
              [0; 7]) as [Hrun _].
  rewrite Hrun. reflexivity.
Defined.

(** The agents of the experiment are built with [eps = 0.1]: they take the
    exploration branch with probability 0.9 (the double [1 - 0.1]). *)
Lemma experiment_agents_explore :
  exists q,
    prob explored [] (Agent.choose_action (Agent.new Double.tenth)) = Some q /\
    (q == 8106479329266893 # 9007199254740992)%Q /\ (9 # 10 <= q)%Q.
Proof.
  destruct (prob_choose_action (Agent.new Double.tenth)
              (8106479329266893 # 9007199254740992)) as (q & Hq & Heq);
    [reflexivity|split; discriminate|].
  exists q. split; [done|]. split; [done|]. rewrite Heq. discriminate.
Qed.

(** ** Determinism *)

Section Agree.

Context {G1 G2 : Type}.
Variable sample1 : forall d : draw, G1 -> answer d * G1.
Variable sample2 : forall d : draw, G2 -> answer d * G2.
Variable same : G1 -> G2 -> Prop.
Hypothesis same_answers : answers_agree sample1 sample2 same.

(** Two runs of one computation on generators that answer alike make the
    same draws and end alike. *)
Lemma run_agree {A} (m : Rand A) g1 g2 :
  same g1 g2 ->
  trace sample1 m g1 = trace sample2 m g2 /\
  match run sample1 m g1, run sample2 m g2 with
  | Some (a1, g1'), Some (a2, g2') => a1 = a2 /\ same g1' g2'
  | None, None => True
  | _, _ => False
  end.
Proof.
  revert g1 g2. induction m as [a| |d k IH]; intros g1 g2 Hg; simpl; try done.
  destruct (same_answers d g1 g2 Hg) as [Hx Hg'].
  destruct (sample1 d g1) as [x1 g1'], (sample2 d g2) as [x2 g2']. simpl in *.
  subst x2. destruct (IH x1 g1' g2' Hg') as [-> Hrun]. done.
Qed.

End Agree.

(** ** Counting hits in doubles *)

Lemma same_double_eq x y : same_double x y = true -> x = y.
Proof.
  destruct x as [s|s| |s m e], y as [s'|s'| |s' m' e']; simpl; try done.
  - by intros ->%Bool.eqb_prop.
  - by intros ->%Bool.eqb_prop.
  - intros [[->%Bool.eqb_prop ->%Pos.eqb_eq]%andb_prop ->%Z.eqb_eq]%andb_prop. done.
Qed.

Lemma forallb_seqZ (f : Z -> bool) a n h :
  forallb f (seqZ a n) = true -> a <= h < a + n -> f h = true.
Proof.
  intros Hf Hh. rewrite forallb_forall in Hf. apply Hf.
  apply list_elem_of_In, elem_of_seqZ. lia.
Qed.

Lemma hit_check_all : forallb hit_check (seqZ 0 num_runs) = true.
Proof. vm_compute. reflexivity. Qed.

Lemma percent_check_all : forallb percent_check (seqZ 0 (num_runs + 1)) = true.
Proof. vm_compute. reflexivity. Qed.

Lemma add_hit h action optimal_action :
  0 <= h < num_runs ->
  Double.add (Double.of_int h) (hit action optimal_action) =
    Double.of_int (h + (if Z.eqb action optimal_action then 1 else 0)).
Proof.
  intros Hh. pose proof (forallb_seqZ _ _ _ h hit_check_all ltac:(lia)) as Hc.
  apply andb_prop in Hc as [H1%same_double_eq H0%same_double_eq].
  unfold hit. destruct (Z.eqb action optimal_action); [done|].
  by rewrite Z.add_0_r.
Qed.

Lemma percent_range h :
  0 <= h <= num_runs ->
  Double.leb Double.zero (percent num_runs h) = true /\
  Double.leb (percent num_runs h) (Double.of_int 100) = true.
Proof.
  intros Hh. pose proof (forallb_seqZ _ _ _ h percent_check_all ltac:(lia)) as Hc.
  by apply andb_prop in Hc.
Qed.

(** ** Composing runs *)

Section Runs.

Context {G : Type}.
Variable sample : forall d : draw, G -> answer d * G.

Lemma runs_to_ret {A} (a : A) g : runs_to sample (Ret a) g [] a g.
Proof. done. Qed.

Lemma runs_to_bind {A B} (m : Rand A) (f : A -> Rand B) g tr1 a g1 tr2 b g2 :
  runs_to sample m g tr1 a g1 -> runs_to sample (f a) g1 tr2 b g2 ->
  runs_to sample (m ≫= f) g (tr1 ++ tr2) b g2.
Proof.
  intros [Hr1 Ht1] [Hr2 Ht2]. split.
  - by rewrite run_bind, Hr1.
  - by rewrite trace_bind, Hr1, Ht1, Ht2.
Qed.

Lemma runs_to_defined {A} (o : option A) a g :
  o = Some a -> runs_to sample (defined o) g [] a g.
Proof. by intros ->. Qed.

Lemma runs_to_draw d g :
  runs_to sample (sample_draw d) g [d] (fst (sample d g)) (snd (sample d g)).
Proof. unfold runs_to, sample_draw. simpl. by destruct (sample d g). Qed.

Lemma for_range_runs {St} (I : Z -> St -> Prop) (P : list draw -> Prop)
    (body : Z -> St -> Rand St) (n : nat) : forall i s g,
  I i s ->
  (forall j s g, i <= j < i + Z.of_nat n -> I j s ->
     exists tr s' g', runs_to sample (body j s) g tr s' g' /\ I (j + 1) s' /\ P tr) ->
  exists chunks s' g',
    runs_to sample (for_range n i body s) g (concat chunks) s' g' /\
    I (i + Z.of_nat n) s' /\ length chunks = n /\ Forall P chunks.
Proof.
  induction n as [|n IH]; intros i s g Hi Hbody.
  - exists [], s, g. rewrite Z.add_0_r. repeat split; try done.
  - destruct (Hbody i s g) as (tr & s1 & g1 & Hrun & Hi1 & Htr); [lia|done|].
    destruct (IH (i + 1) s1 g1 Hi1) as (chunks & s' & g' & Hrest & Hi' & Hlen & Hall).
    { intros j s2 g2 Hj. apply Hbody. lia. }
    exists (tr :: chunks), s', g'. split; [|split; [|split]].
    + simpl. by eapply runs_to_bind.
    + replace (i + Z.of_nat (S n)) with (i + 1 + Z.of_nat n) by lia. done.
    + simpl. by rewrite Hlen.
    + by constructor.
Qed.

(** The walk draws once for each mean and keeps their number. *)
Lemma walk_runs qs g :
  exists qs' g',
    runs_to sample (Bandit.walk qs) g (replicate (length qs) Bandit.walk_noise) qs' g' /\
    length qs' = length qs.
Proof.
  revert g. induction qs as [|q qs IH]; intros g.
  - exists [], g. done.
  - destruct (IH (snd (sample Bandit.walk_noise g))) as (qs' & g' & Hrun & Hlen).
    eexists (_ :: qs'), g'. split; [|by simpl; rewrite Hlen].
    cbn [Bandit.walk]. change (replicate (length (q :: qs)) Bandit.walk_noise)
      with ([Bandit.walk_noise] ++ replicate (length qs) Bandit.walk_noise).
    eapply runs_to_bind; [apply (runs_to_draw Bandit.walk_noise)|].
    rewrite <- (app_nil_r (replicate _ _)).
    eapply runs_to_bind; [exact Hrun|]. apply runs_to_ret.
Qed.

Lemma get_reward_runs b action q g :
  vec_get (Bandit.q_true b) action = Some q ->
  runs_to sample (Bandit.get_reward b action) g [Bandit.reward_noise]
    (Double.add q (fst (sample Bandit.reward_noise g)))
    (snd (sample Bandit.reward_noise g)).
Proof.
  intros Hq. unfold Bandit.get_reward.
  change [Bandit.reward_noise] with ([] ++ [Bandit.reward_noise] ++ []).
  eapply runs_to_bind; [by apply runs_to_defined|].
  eapply runs_to_bind; [apply (runs_to_draw Bandit.reward_noise)|]. apply runs_to_ret.
Qed.

Hypothesis sample_lawful : lawful sample.

(** [choose_action] returns an action in [0, k). *)
Lemma choose_action_runs a g :
  Z.of_nat (length (Agent.Q a)) = k ->
  exists tr action g',
    runs_to sample (Agent.choose_action a) g tr action g' /\
    0 <= action < k /\
    (tr = [Bernoulli (Agent.bern a)] \/ tr = [Bernoulli (Agent.bern a); UniformInt 0 9]).
Proof.
  intros Hlen. unfold runs_to. rewrite run_choose_action, trace_choose_action.
  destruct (sample (Bernoulli (Agent.bern a)) g) as [[] g1]; simpl.
  - pose proof (lawful_uniform sample sample_lawful 0 9 g1 ltac:(lia)) as Hu.
    destruct (sample (UniformInt 0 9) g1) as [x g2]. simpl in Hu.
    exists [Bernoulli (Agent.bern a); UniformInt 0 9], x, g2. unfold k. auto with lia.
  - exists [Bernoulli (Agent.bern a)], (max_element (Agent.Q a)), g1.
    split; [done|]. split; [|auto].
    rewrite <- Hlen. apply max_element_range. intros E. rewrite E in Hlen. done.
Qed.

(** The turn of an agent whose update is defined on [0, k). *)
Lemma agent_turn_runs {T} `{Learner T} b optimal_action step (ag : T) rewards optimal g :
  Z.of_nat (length (Bandit.q_true b)) = k ->
  Z.of_nat (length (Agent.Q (agent_base ag))) = k ->
  Agent.bern (agent_base ag) = bern_p ->
  (forall action reward, 0 <= action < k -> is_Some (agent_update action reward ag)) ->
  0 <= step < Z.of_nat (length rewards) ->
  0 <= step < Z.of_nat (length optimal) ->
  exists tr action reward ag' r o rewards' optimal' g',
    runs_to sample (agent_turn b optimal_action step (ag, rewards, optimal)) g tr
      (ag', rewards', optimal') g' /\
    turn_draws tr /\ 0 <= action < k /\
    agent_update action reward ag = Some ag' /\
    vec_get rewards step = Some r /\
    vec_set rewards step (Double.add r reward) = Some rewards' /\
    vec_get optimal step = Some o /\
    vec_set optimal step (Double.add o (hit action optimal_action)) = Some optimal'.
Proof.
  intros Hb HQ Hbern Hupd Hr Ho.
  destruct (choose_action_runs (agent_base ag) g HQ) as (tr & action & g1 & Hc & Ha & Htr).
  destruct (vec_get_in_range (Bandit.q_true b) action) as [q Hq]; [lia|].
  pose proof (get_reward_runs b action q g1 Hq) as Hg.
  set (reward := Double.add q (fst (sample Bandit.reward_noise g1))) in *.
  set (g2 := snd (sample Bandit.reward_noise g1)) in *.
  destruct (Hupd action reward Ha) as [ag' Hag].
  destruct (vec_get_in_range rewards step Hr) as [r Hgr].
  destruct (vec_get_in_range optimal step Ho) as [o Hgo].
  pose proof (vec_set_Some rewards step (Double.add r reward) Hr) as Hsr.
  pose proof (vec_set_Some optimal step (Double.add o (hit action optimal_action)) Ho) as Hso.
  eexists (tr ++ [Bandit.reward_noise] ++ [] ++ [] ++ [] ++ []), action, reward, ag', r, o, _, _, g2.
  split; [|split; [|eauto 10]].
  - unfold agent_turn.
    eapply runs_to_bind; [exact Hc|].
    eapply runs_to_bind; [exact Hg|].
    eapply runs_to_bind; [by apply runs_to_defined|].
    eapply runs_to_bind; [apply runs_to_defined; unfold vec_add; rewrite Hgr; exact Hsr|].
    eapply runs_to_bind; [apply runs_to_defined; unfold vec_add; rewrite Hgo; exact Hso|].
    apply runs_to_ret.
  - rewrite Hbern in Htr. destruct Htr as [-> | ->]; [left|right]; done.
Qed.

End Runs.

(** ** One time step *)

Lemma sa_update_keeps action reward s s' i :
  SampleAverageAgent.update action reward s = Some s' ->
  sa_shape s ->
  Forall (fun c => 0 <= c <= i) (SampleAverageAgent.counts s) ->
  sa_shape s' /\
  Agent.bern (SampleAverageAgent.base s') = Agent.bern (SampleAverageAgent.base s) /\
  Forall (fun c => 0 <= c <= i + 1) (SampleAverageAgent.counts s').
Proof.
  intros (c & q & counts' & Q' & Hgc & Hlt & Hgq & Hsc & HsQ & ->)%sa_update_inv
    [HQ Hc] Hall.
  unfold sa_shape. simpl.
  rewrite (vec_set_length _ _ _ _ Hsc), (vec_set_length _ _ _ _ HsQ).
  repeat split; try done.
  apply vec_set_inv in Hsc as [_ ->]. apply vec_get_Some in Hgc as [_ Hgc].
  apply Forall_insert.
  - eapply Forall_impl; [exact Hall|]. simpl. lia.
  - eapply Forall_lookup_1 in Hall; [|exact Hgc]. simpl in Hall. lia.
Qed.

Lemma css_update_keeps action reward s s' :
  ConstantStepSizeAgent.update action reward s = Some s' ->
  css_shape s ->
  css_shape s' /\
  Agent.bern (ConstantStepSizeAgent.base s') = Agent.bern (ConstantStepSizeAgent.base s).
Proof.
  unfold ConstantStepSizeAgent.update, css_shape. intros Hu HQ.
  destruct (vec_get _ action) as [q|]; [|done]. simpl in Hu.
  destruct (vec_set _ action _) as [Q'|] eqn:HsQ; [|done].
  injection Hu as <-. simpl. by rewrite (vec_set_length _ _ _ _ HsQ).
Qed.

Lemma hits_step n i optimal optimal' o action optimal_action :
  0 <= n < num_runs ->
  (forall j x, vec_get optimal j = Some x ->
     hits_upto (if Z.ltb j i then n + 1 else n) x) ->
  vec_get optimal i = Some o ->
  vec_set optimal i (Double.add o (hit action optimal_action)) = Some optimal' ->
  forall j x, vec_get optimal' j = Some x ->
    hits_upto (if Z.ltb j (i + 1) then n + 1 else n) x.
Proof.
  intros Hn Hall Ho Hs j x Hx. destruct (decide (j = i)) as [->|Hne].
  - rewrite (vec_get_set_eq _ _ _ _ Hs) in Hx. injection Hx as <-.
    destruct (Hall i o Ho) as (h & Hh & ->). rewrite Z.ltb_irrefl in Hh.
    rewrite add_hit by lia. replace (i <? i + 1) with true by (symmetry; lia).
    eexists. split; [|done]. destruct (Z.eqb action optimal_action); lia.
  - rewrite (vec_get_set_ne _ _ _ _ _ Hs Hne) in Hx.
    destruct (Hall j x Hx) as (h & Hh & ->). exists h. split; [|done].
    destruct (Z.ltb_spec j i), (Z.ltb_spec j (i + 1)); lia.
Qed.

Section Step.

Context {G : Type}.
Variable sample : forall d : draw, G -> answer d * G.
Hypothesis sample_lawful : lawful sample.

Lemma step_body_runs T n i s g :
  0 <= n < num_runs -> 0 <= i < T -> T <= INT_MAX ->
  run_inv T n i s ->
  exists tr s' g',
    runs_to sample (step_body i s) g tr s' g' /\
    run_inv T n (i + 1) s' /\ step_draws tr.
Proof.
  intros Hn Hi HT (Hok & Hcounts & Hsa_o & Hcss_o).
  destruct Hok as [Hb ok_sa0 ok_css0 Hsab Hcssb Hlr1 Hlr2 Hlo1 Hlo2].
  destruct (walk_runs sample (Bandit.q_true (bandit s)) g) as (qs & g1 & Hwalk & Hqs).
  set (b := {| Bandit.q_true := qs |}).
  destruct (agent_turn_runs sample sample_lawful b (Bandit.optimal_action b) i
              (sa_agent s) (sa_rewards s) (sa_optimal s) g1)
    as (tr1 & a1 & r1 & sa' & x1 & o1 & sa_r & sa_o & g2 &
        Hrun1 & Htr1 & Ha1 & Hu1 & Hgr1 & Hsr1 & Hgo1 & Hso1);
    [simpl; lia|apply ok_sa0|done| |lia|lia|].
  { intros action reward Ha. destruct ok_sa0 as [HQ Hc].
    destruct (vec_get_in_range (SampleAverageAgent.counts (sa_agent s)) action)
      as [c Hgc]; [lia|].
    destruct (vec_get_in_range (Agent.Q (SampleAverageAgent.base (sa_agent s))) action)
      as [q Hgq]; [lia|].
    assert (c <= i) as Hci.
    { apply vec_get_Some in Hgc as [_ Hgc].
      eapply Forall_lookup_1 in Hcounts; [|exact Hgc]. simpl in Hcounts. lia. }
    destruct (sa_update_defined action reward (sa_agent s) c q)
      as (? & ? & _ & _ & Hu); [done|lia|done|]. simpl. rewrite Hu. done. }
  destruct (agent_turn_runs sample sample_lawful b (Bandit.optimal_action b) i
              (css_agent s) (css_rewards s) (css_optimal s) g2)
    as (tr2 & a2 & r2 & css' & x2 & o2 & css_r & css_o & g3 &
        Hrun2 & Htr2 & Ha2 & Hu2 & Hgr2 & Hsr2 & Hgo2 & Hso2);
    [simpl; lia|apply ok_css0|done| |lia|lia|].
  { intros action reward Ha. unfold css_shape in ok_css0.
    destruct (vec_get_in_range (Agent.Q (ConstantStepSizeAgent.base (css_agent s))) action)
      as [q Hgq]; [lia|].
    destruct (css_update_defined action reward (css_agent s) q) as (? & _ & Hu); [done|].
    simpl. rewrite Hu. done. }
  simpl in Hu1, Hu2.
  destruct (sa_update_keeps _ _ _ _ i Hu1 ok_sa0 Hcounts) as (Hsa' & Hbern1 & Hcounts').
  destruct (css_update_keeps _ _ _ _ Hu2 ok_css0) as (Hcss' & Hbern2).
  eexists ((replicate (length (Bandit.q_true (bandit s))) Bandit.walk_noise ++ []) ++
           tr1 ++ tr2 ++ []), _, g3.
  split; [|split].
  - unfold step_body, Bandit.random_walk.
    eapply runs_to_bind.
    { eapply runs_to_bind; [exact Hwalk|]. apply runs_to_ret. }
    eapply runs_to_bind; [exact Hrun1|]. cbn beta iota.
    eapply runs_to_bind; [exact Hrun2|]. cbn beta iota.
    apply runs_to_ret.
  - split; [|split; [|split]]; simpl.
    + split; simpl; try done; try congruence.
      * by rewrite (vec_set_length _ _ _ _ Hsr1).
      * by rewrite (vec_set_length _ _ _ _ Hsr2).
      * by rewrite (vec_set_length _ _ _ _ Hso1).
      * by rewrite (vec_set_length _ _ _ _ Hso2).
    + done.
    + by apply (hits_step n i (sa_optimal s) sa_o o1 a1 (Bandit.optimal_action b)).
    + by apply (hits_step n i (css_optimal s) css_o o2 a2 (Bandit.optimal_action b)).
  - exists tr1, tr2. rewrite !app_nil_r. split; [|done].
    do 2 f_equal. unfold k in *. lia.
Qed.

End Step.

(** ** The two loops *)

Lemma hits_upto_lookup n (v : list double) :
  Forall (hits_upto n) v <-> (forall j x, vec_get v j = Some x -> hits_upto n x).
Proof.
  rewrite Forall_lookup. split.
  - intros H j x [_ Hx]%vec_get_Some. eauto.
  - intros H i x Hx. apply (H (Z.of_nat i)). by rewrite vec_get_of_nat.
Qed.

Lemma reset_all_inv T n s : exp_inv T n s -> run_inv T n 0 (reset_all s).
Proof.
  intros ([Hb [HQ Hc] Hcss Hsab Hcssb Hlr1 Hlr2 Hlo1 Hlo2] & Hsa & Hcs).
  split; [|split; [|split]]; simpl.
  - split; simpl; try done.
    + by rewrite length_fill.
    + unfold sa_shape. simpl. by rewrite !length_fill.
    + unfold css_shape in *. simpl. by rewrite length_fill.
  - unfold fill. apply Forall_replicate. done.
  - intros j x Hx. apply vec_get_lt in Hx as Hj.
    replace (j <? 0) with false by (symmetry; lia).
    exact (proj1 (hits_upto_lookup n _) Hsa j x Hx).
  - intros j x Hx. apply vec_get_lt in Hx as Hj.
    replace (j <? 0) with false by (symmetry; lia).
    exact (proj1 (hits_upto_lookup n _) Hcs j x Hx).
Qed.

Lemma run_inv_end T n s : run_inv T n T s -> exp_inv T (n + 1) s.
Proof.
  intros (Hok & _ & Hsa & Hcs). split; [done|].
  split; apply hits_upto_lookup; intros j x Hx; apply vec_get_lt in Hx as Hj.
  - specialize (Hsa j x Hx). rewrite (ok_sa_optimal _ _ Hok) in Hj.
    by replace (j <? T) with true in Hsa by (symmetry; lia).
  - specialize (Hcs j x Hx). rewrite (ok_css_optimal _ _ Hok) in Hj.
    by replace (j <? T) with true in Hcs by (symmetry; lia).
Qed.

Lemma exp_init_inv T : 0 <= T -> exp_inv T 0 (exp_init T).
Proof.
  intros HT. split; [|split].
  - split; simpl; rewrite ?length_replicate; try done; lia.
  - apply Forall_replicate. by exists 0.
  - apply Forall_replicate. by exists 0.
Qed.

(** The draws of a run: those of its time steps, one after the other. *)
Lemma concat_run_draws T (cs : list (list draw)) :
  Forall (run_draws T) cs ->
  exists chunks,
    concat cs = concat chunks /\
    length chunks = (length cs * Z.to_nat T)%nat /\
    Forall step_draws chunks.
Proof.
  induction 1 as [|c cs (chunk & -> & Hlen & Hall) _ (chunks & Heq & Hlens & Halls)].
  - by exists [].
  - exists (chunk ++ chunks). split; [|split].
    + simpl. by rewrite concat_app, Heq.
    + rewrite length_app. simpl. lia.
    + by apply Forall_app.
Qed.

Section Simulate.

Context {G : Type}.
Variable sample : forall d : draw, G -> answer d * G.
Hypothesis sample_lawful : lawful sample.

Lemma run_body_runs T n s g :
  0 <= n < num_runs -> 0 <= T <= INT_MAX ->
  exp_inv T n s ->
  exists tr s' g',
    runs_to sample (run_body T n s) g tr s' g' /\
    exp_inv T (n + 1) s' /\ run_draws T tr.
Proof.
  intros Hn HT Hinv. unfold run_body.
  destruct (for_range_runs sample (run_inv T n) step_draws step_body (Z.to_nat T)
              0 (reset_all s) g) as (chunks & s' & g' & Hrun & Hend & Hlen & Hall).
  { by apply reset_all_inv. }
  { intros j s1 g1 Hj Hs1. apply (step_body_runs sample sample_lawful T n); auto; lia. }
  exists (concat chunks), s', g'. split; [done|]. split.
  - apply run_inv_end. by replace (0 + Z.of_nat (Z.to_nat T)) with T in Hend by lia.
  - by exists chunks.
Qed.

Lemma simulate_runs R T g :
  0 <= R <= num_runs -> 0 <= T <= INT_MAX ->
  exists chunks s g',
    runs_to sample (simulate R T) g (concat chunks) s g' /\
    exp_inv T R s /\
    length chunks = (Z.to_nat R * Z.to_nat T)%nat /\
    Forall step_draws chunks.
Proof.
  intros HR HT. unfold simulate.
  destruct (for_range_runs sample (fun n s => 0 <= n <= R /\ exp_inv T n s) (run_draws T)
              (run_body T) (Z.to_nat R) 0 (exp_init T) g)
    as (cs & s & g' & Hrun & [_ Hend] & Hlen & Hall).
  { split; [lia|]. apply exp_init_inv. lia. }
  { intros n s1 g1 Hn [_ Hs1].
    destruct (run_body_runs T n s1 g1) as (tr & s2 & g2 & Hr & Hi & Hd); auto; [lia|].
    exists tr, s2, g2. split; [done|]. split; [|done]. split; [lia|done]. }
  destruct (concat_run_draws T cs Hall) as (chunks & Heq & Hlens & Halls).
  exists chunks, s, g'. rewrite <- Heq. split; [done|]. split; [|split; [|done]].
  - by replace (0 + Z.of_nat (Z.to_nat R)) with R in Hend by lia.
  - by rewrite Hlens, Hlen.
Qed.

End Simulate.

(** ** The tables *)

Lemma vec_get_fmap {A B} (f : A -> B) (v : list A) i :
  vec_get (f <$> v) i = f <$> vec_get v i.
Proof. unfold vec_get. case_bool_decide; [|done]. apply list_lookup_fmap. Qed.

Lemma rows_spec n : forall i sa css,
  0 <= i ->
  i + Z.of_nat n <= Z.of_nat (length sa) ->
  i + Z.of_nat n <= Z.of_nat (length css) ->
  exists l,
    rows n i sa css = Some l /\ length l = n /\
    forall j, 0 <= j < Z.of_nat n ->
      exists x y,
        vec_get sa (i + j) = Some x /\ vec_get css (i + j) = Some y /\
        vec_get l j = Some (i + j, x, y).
Proof.
  induction n as [|n IH]; intros i sa css Hi Hsa Hcss.
  - exists []. repeat split; try done. lia.
  - destruct (vec_get_in_range sa i) as [x Hx]; [lia|].
    destruct (vec_get_in_range css i) as [y Hy]; [lia|].
    destruct (IH (i + 1) sa css) as (l & Hl & Hlen & Hrows); [lia..|].
    exists ((i, x, y) :: l). simpl. rewrite Hx, Hy. simpl. rewrite Hl. simpl.
    split; [done|]. split; [by rewrite Hlen|].
    intros j Hj. destruct (decide (j = 0)) as [->|Hne].
    + rewrite Z.add_0_r. eauto.
    + destruct (Hrows (j - 1)) as (x' & y' & Hx' & Hy' & Hl'); [lia|].
      replace (i + 1 + (j - 1)) with (i + j) in * by lia.
      exists x', y'. split; [done|]. split; [done|].
      apply vec_get_Some in Hl' as [_ Hl']. apply vec_get_Some. split; [lia|].
      replace (Z.to_nat j) with (S (Z.to_nat (j - 1))) by lia. done.
Qed.

Lemma write_tables_spec R T s :
  0 <= T -> exp_ok T s ->
  exists t,
    write_tables R T s = Some t /\
    Z.of_nat (length (reward_file t)) = T /\ Z.of_nat (length (optimal_file t)) = T /\
    forall i, 0 <= i < T ->
      exists r1 r2 o1 o2,
        vec_get (sa_rewards s) i = Some r1 /\ vec_get (css_rewards s) i = Some r2 /\
        vec_get (sa_optimal s) i = Some o1 /\ vec_get (css_optimal s) i = Some o2 /\
        vec_get (reward_file t) i =
          Some (i, Double.div r1 (Double.of_int R), Double.div r2 (Double.of_int R)) /\
        vec_get (optimal_file t) i =
          Some (i, Double.mul (Double.div o1 (Double.of_int R)) (Double.of_int 100),
                   Double.mul (Double.div o2 (Double.of_int R)) (Double.of_int 100)).
Proof.
  intros HT [_ _ _ _ _ Hr1 Hr2 Ho1 Ho2]. unfold write_tables.
  destruct (rows_spec (Z.to_nat T) 0 (average R (sa_rewards s)) (average R (css_rewards s)))
    as (lr & Hlr & Hlenr & Hrows_r); [lia|unfold average; rewrite length_fmap; lia..|].
  destruct (rows_spec (Z.to_nat T) 0 (percentage R (sa_optimal s))
              (percentage R (css_optimal s)))
    as (lo & Hlo & Hleno & Hrows_o); [lia|unfold percentage; rewrite length_fmap; lia..|].
  rewrite Hlr, Hlo. eexists. split; [reflexivity|].
  cbn [reward_file optimal_file]. split; [lia|]. split; [lia|]. intros i Hi.
  destruct (Hrows_r i) as (x1 & y1 & Hx1 & Hy1 & Hl1); [lia|].
  destruct (Hrows_o i) as (x2 & y2 & Hx2 & Hy2 & Hl2); [lia|].
  rewrite Z.add_0_l in *. unfold average, percentage in *.
  rewrite vec_get_fmap in Hx1, Hy1, Hx2, Hy2.
  destruct (vec_get (sa_rewards s) i) as [r1|]; [|by simpl in *].
  destruct (vec_get (css_rewards s) i) as [r2|]; [|by simpl in *].
  destruct (vec_get (sa_optimal s) i) as [o1|]; [|by simpl in *].
  destruct (vec_get (css_optimal s) i) as [o2|]; [|by simpl in *].
  injection Hx1 as <-. injection Hy1 as <-.
  injection Hx2 as <-. injection Hy2 as <-.
  exists r1, r2, o1, o2. rewrite Hl1, Hl2. done.
Qed.

(** [R] equal contributions to one position of a zeroed accumulator. *)
Lemma accumulate_constant_spec R T t v :
  0 <= t < T ->
  exists acc,
    accumulate_constant R T t v = Some acc /\
    Z.of_nat (length acc) = T /\
    vec_get acc t = Some (sum_constant (Z.to_nat R) v).
Proof.
  intros Ht. unfold accumulate_constant, sum_constant.
  induction (Z.to_nat R) as [|n (acc & Hacc & Hlen & Hget)]; simpl.
  - eexists. split; [done|]. rewrite length_replicate. split; [lia|].
    apply vec_get_replicate_in_range. lia.
  - rewrite Hacc. simpl. unfold vec_add. rewrite Hget. simpl.
    rewrite vec_set_Some by lia. eexists. split; [done|].
    rewrite length_insert. split; [done|].
    apply vec_get_Some. split; [lia|]. apply list_lookup_insert_eq. lia.
Qed.

(** ** The whole experiment *)

Section Experiment.

Context {G : Type}.
Variable sample : forall d : draw, G -> answer d * G.
Hypothesis sample_lawful : lawful sample.

Lemma run_exp_with_runs R T g :
  0 <= R <= num_runs -> 0 <= T <= INT_MAX ->
  exists chunks s t g',
    runs_to sample (simulate R T) g (concat chunks) s g' /\
    runs_to sample (run_exp_with R T) g (concat chunks) t g' /\
    exp_inv T R s /\
    write_tables R T s = Some t /\
    Z.of_nat (length chunks) = R * T /\
    Forall step_draws chunks.
Proof.
  intros HR HT.
  destruct (simulate_runs sample sample_lawful R T g)
    as (chunks & s & g' & Hrun & Hinv & Hlen & Hall); [done..|].
  destruct (write_tables_spec R T s) as (t & Ht & _); [lia|apply Hinv|].
  exists chunks, s, t, g'.
  split; [done|]. split; [|split; [done|split; [done|split; [|done]]]].
  - destruct Hrun as [Hr Htr]. unfold run_exp_with. split.
    + by rewrite run_bind, Hr, run_defined, Ht.
    + by rewrite trace_bind, Hr, Htr, trace_defined, app_nil_r.
  - rewrite Hlen, Nat2Z.inj_mul, !Z2Nat.id; lia.
Qed.

Lemma run_exp_runs g :
  exists chunks s t g',
    runs_to sample (simulate num_runs num_steps) g (concat chunks) s g' /\
    runs_to sample run_exp g (concat chunks) t g' /\
    exp_inv num_steps num_runs s /\
    write_tables num_runs num_steps s = Some t /\
    Z.of_nat (length chunks) = num_runs * num_steps /\
    Forall step_draws chunks.
Proof. by apply run_exp_with_runs. Qed.

End Experiment.

(** C2. The experiment is a function of the generator: two runs whose
    generators answer alike, as two copies of one engine started from one
    seed do, make the same draws in the same order and both write the same
    two tables. *)
Theorem run_exp_deterministic {G1 G2 : Type}
    (sample1 : forall d : draw, G1 -> answer d * G1)
    (sample2 : forall d : draw, G2 -> answer d * G2)
    (same : G1 -> G2 -> Prop) (g1 : G1) (g2 : G2) :
  lawful sample1 ->
  answers_agree sample1 sample2 same -> same g1 g2 ->
  trace sample1 run_exp g1 = trace sample2 run_exp g2 /\
  exists t g1' g2',
    run sample1 run_exp g1 = Some (t, g1') /\
    run sample2 run_exp g2 = Some (t, g2') /\ same g1' g2'.
Proof.
  intros Hl Hs Hg.
  destruct (run_agree sample1 sample2 same Hs run_exp g1 g2 Hg) as [Htr Hrun].
  split; [exact Htr|].
  destruct (run_exp_runs sample1 Hl g1) as (chunks & s & t & g1' & _ & [Hr1 _] & _).
  rewrite Hr1 in Hrun.
  destruct (run sample2 run_exp g2) as [[t2 g2']|]; [|contradiction].
  destruct Hrun as [<- Hsame]. exists t, g1', g2'. auto.
Qed.

Lemma run_exp_deterministic_witness :
  trace Tape.sample run_exp [3; 1; 4; 1; 5] = trace Tape.sample run_exp [3; 1; 4; 1; 5] /\
  exists t g1' g2',
    run Tape.sample run_exp [3; 1; 4; 1; 5] = Some (t, g1') /\
    run Tape.sample run_exp [3; 1; 4; 1; 5] = Some (t, g2') /\ g1' = g2'.
Proof.
  apply (run_exp_deterministic Tape.sample Tape.sample eq _ _ tape_lawful).
  - intros d g1 g2 E. rewrite E. split; reflexivity.
  - reflexivity.
Defined.

(** C6. Every time step of every run draws in this order: the [k] walk
    draws of the environment, then, for each agent in turn (first the
    sample-average agent, then the constant step-size agent), the draws of
    its [choose_action] followed by the noise of its reward.  [choose_action] makes one Bernoulli
    draw, followed by one uniform integer draw exactly when the Bernoulli
    draw is true (the branch that returns a random action), and by nothing
    on the other branch.  The draws of the experiment are those of its
    [num_runs * num_steps] time steps, one after the other. *)
Theorem draws_in_order {G : Type} (sample : forall d : draw, G -> answer d * G) (g : G) :
  lawful sample ->
  (forall a g1,
     trace sample (Agent.choose_action a) g1 =
       if fst (sample (Bernoulli (Agent.bern a)) g1)
       then [Bernoulli (Agent.bern a); UniformInt 0 9]
       else [Bernoulli (Agent.bern a)]) /\
  exists chunks,
    trace sample run_exp g = concat chunks /\
    Z.of_nat (length chunks) = num_runs * num_steps /\
    Forall step_draws chunks.
Proof.
  intros Hl. split; [apply trace_choose_action|].
  destruct (run_exp_runs sample Hl g) as (chunks & s & t & g' & _ & [_ Htr] & _ & _ & Hlen & Hall).
  by exists chunks.
Qed.

Lemma draws_in_order_witness :
  exists chunks,
    trace Tape.sample run_exp [2; 7; 1; 8] = concat chunks /\
    Z.of_nat (length chunks) = num_runs * num_steps /\
    Forall step_draws chunks.
Proof. apply (draws_in_order Tape.sample [2; 7; 1; 8] tape_lawful). Defined.

(** C8. For an action within the bounds of [q_true], [get_reward] reads
    [q_true[action]] and returns it plus one draw of the N(0, 1) noise.
    [choose_action] of an agent with [k] estimates returns an action in
    [0, k), and the experiment as a whole never leaves the defined
    behaviour: no index is ever out of range. *)
Theorem get_reward_in_bounds {G : Type} (sample : forall d : draw, G -> answer d * G) :
  lawful sample ->
  (forall b action g, 0 <= action < Z.of_nat (length (Bandit.q_true b)) ->
     exists q,
       vec_get (Bandit.q_true b) action = Some q /\
       runs_to sample (Bandit.get_reward b action) g
         [Normal Double.zero Double.one]
         (Double.add q (fst (sample (Normal Double.zero Double.one) g)))
         (snd (sample (Normal Double.zero Double.one) g))) /\
  (forall a g, Z.of_nat (length (Agent.Q a)) = k ->
     exists action g',
       run sample (Agent.choose_action a) g = Some (action, g') /\ 0 <= action < k) /\
  (forall g, is_Some (run sample run_exp g)).
Proof.
  intros Hl. split; [|split].
  - intros b action g Ha. destruct (vec_get_in_range _ _ Ha) as [q Hq].
    exists q. split; [done|]. by apply get_reward_runs.
  - intros a g Ha.
    destruct (choose_action_runs sample Hl a g Ha) as (tr & action & g' & [Hr _] & Hk & _).
    eauto.
  - intros g.
    destruct (run_exp_runs sample Hl g) as (chunks & s & t & g' & _ & [Hr _] & _).
    by rewrite Hr.
Qed.

Lemma get_reward_in_bounds_witness : is_Some (run Tape.sample run_exp [2; 7; 1; 8]).
Proof.
  destruct (get_reward_in_bounds Tape.sample tape_lawful) as (_ & _ & H). apply H.
Defined.

(** C7 (amended). The tables hold, at every time step, the accumulated
    reward divided by [num_runs] and the accumulated hit count divided by
    [num_runs] and multiplied by 100, in double arithmetic; every value of
    the optimal-action table lies between 0 and 100.  If each of [R] runs
    adds the same reward [v] at a time step, the table holds there the
    double sum [v + ... + v] divided by [R]; for [v = 1.0] and the
    [num_runs] runs of the program this is [v] itself. *)
Theorem tables_are_averages {G : Type} (sample : forall d : draw, G -> answer d * G) (g : G) :
  lawful sample ->
  (exists s t g',
     run sample (simulate num_runs num_steps) g = Some (s, g') /\
     run sample run_exp g = Some (t, g') /\
     Z.of_nat (length (reward_file t)) = num_steps /\
     Z.of_nat (length (optimal_file t)) = num_steps /\
     forall i, 0 <= i < num_steps ->
       exists r1 r2 o1 o2 p1 p2,
         vec_get (sa_rewards s) i = Some r1 /\ vec_get (css_rewards s) i = Some r2 /\
         vec_get (sa_optimal s) i = Some o1 /\ vec_get (css_optimal s) i = Some o2 /\
         vec_get (reward_file t) i =
           Some (i, Double.div r1 (Double.of_int num_runs),
                    Double.div r2 (Double.of_int num_runs)) /\
         vec_get (optimal_file t) i = Some (i, p1, p2) /\
         p1 = Double.mul (Double.div o1 (Double.of_int num_runs)) (Double.of_int 100) /\
         p2 = Double.mul (Double.div o2 (Double.of_int num_runs)) (Double.of_int 100) /\
         Double.leb Double.zero p1 = true /\ Double.leb p1 (Double.of_int 100) = true /\
         Double.leb Double.zero p2 = true /\ Double.leb p2 (Double.of_int 100) = true) /\
  (forall R T t v, 0 <= t < T ->
     exists acc,
       accumulate_constant R T t v = Some acc /\
       vec_get (average R acc) t =
         Some (Double.div (sum_constant (Z.to_nat R) v) (Double.of_int R))) /\
  average_recovers num_runs num_steps 0 Double.one.
Proof.
  intros Hl. split; [|split].
  - destruct (run_exp_runs sample Hl g)
      as (chunks & s & t & g' & [Hsim _] & [Hrun _] & (Hok & Hsa & Hcs) & Ht & _).
    destruct (write_tables_spec num_runs num_steps s) as (t' & Ht' & Hlr & Hlo & Hrows);
      [done|done|].
    assert (t' = t) as -> by congruence.
    exists s, t, g'. repeat (split; [done|]). intros i Hi.
    destruct (Hrows i Hi) as (r1 & r2 & o1 & o2 & Hr1 & Hr2 & Ho1 & Ho2 & Hrow & Hopt).
    destruct (proj1 (hits_upto_lookup _ _) Hsa i o1 Ho1) as (h1 & Hh1 & ->).
    destruct (proj1 (hits_upto_lookup _ _) Hcs i o2 Ho2) as (h2 & Hh2 & ->).
    destruct (percent_range h1 Hh1) as [? ?], (percent_range h2 Hh2) as [? ?].
    eexists r1, r2, _, _, _, _. repeat (split; [done|]). done.
  - intros R T t v Ht.
    destruct (accumulate_constant_spec R T t v Ht) as (acc & Hacc & _ & Hget).
    exists acc. split; [done|]. unfold average. by rewrite vec_get_fmap, Hget.
  - destruct (accumulate_constant_spec num_runs num_steps 0 Double.one) as (acc & Hacc & _ & Hget);
      [done|].
    exists acc. split; [done|]. unfold average. rewrite vec_get_fmap, Hget.
    vm_compute. reflexivity.
Qed.

Lemma tables_are_averages_witness :
  exists t g', run Tape.sample run_exp [2; 7; 1; 8] = Some (t, g') /\
    Z.of_nat (length (optimal_file t)) = num_steps.
Proof.
  pose proof (tables_are_averages Tape.sample [2; 7; 1; 8] tape_lawful) as H.
  destruct H as [H _]. destruct H as (s & t & g' & H).
  destruct H as (_ & Hrun & _ & Hlen & _).
  exists t, g'. split; [exact Hrun|exact Hlen].
Defined.

(** Two thousand runs that each add 0.1 at time step 0 leave a table value
    below 0.1: the sum of the doubles is not 200. *)
Lemma average_loses_constant : ~ average_recovers num_runs num_steps 0 Double.tenth.
Proof.
  pose proof (accumulate_constant_spec num_runs num_steps 0 Double.tenth ltac:(done))
    as (acc' & Hacc' & _ & Hget').
  intros (acc & Hacc & Hget).
  rewrite Hacc' in Hacc. injection Hacc as <-.
  unfold average in Hget. rewrite vec_get_fmap, Hget' in Hget.
  vm_compute in Hget. discriminate Hget.
Qed.

(** * Further properties *)

(** ** Rounding never invents a NaN *)

Lemma shr_1_nonneg mrs : 0 <= shr_m mrs -> 0 <= shr_m (shr_1 mrs).
Proof. destruct mrs as [[|[p|p|]|p] r s]; simpl; lia. Qed.

Lemma iter_shr_1_nonneg p : forall mrs,
  0 <= shr_m mrs -> 0 <= shr_m (SpecFloat.iter_pos shr_1 p mrs).
Proof.
  induction p as [p IH|p IH|]; intros mrs H; simpl.
  - apply IH, IH, shr_1_nonneg, H.
  - apply IH, IH, H.
  - apply shr_1_nonneg, H.
Qed.

Lemma shr_fexp_nonneg m e l :
  0 <= m -> 0 <= shr_m (fst (shr_fexp Double.prec Double.emax m e l)).
Proof.
  intros Hm. unfold shr_fexp, shr.
  assert (0 <= shr_m (shr_record_of_loc m l)) as H0.
  { destruct l as [|[]]; simpl; lia. }
  destruct (fexp _ _ _ - e); simpl; auto using iter_shr_1_nonneg.
Qed.

Lemma round_nearest_even_nonneg m l : 0 <= m -> 0 <= round_nearest_even m l.
Proof. intros Hm. destruct l as [|[]]; simpl; try lia. destruct (Z.even m); lia. Qed.

Lemma binary_round_aux_not_nan s m e l :
  0 <= m -> Double.is_nan (binary_round_aux Double.prec Double.emax s m e l) = false.
Proof.
  intros Hm. unfold binary_round_aux.
  pose proof (shr_fexp_nonneg m e l Hm) as H1.
  destruct (shr_fexp Double.prec Double.emax m e l) as [mrs' e']. simpl in H1.
  pose proof (shr_fexp_nonneg _ e' loc_Exact
                (round_nearest_even_nonneg _ (loc_of_shr_record mrs') H1)) as H2.
  destruct (shr_fexp Double.prec Double.emax _ e' loc_Exact) as [mrs'' e'']. simpl in H2.
  destruct (shr_m mrs'') as [|p|p];
    [done|by destruct (e'' <=? Double.emax - Double.prec)|lia].
Qed.

Lemma binary_normalize_not_nan m e :
  Double.is_nan (binary_normalize Double.prec Double.emax m e false) = false.
Proof.
  unfold binary_normalize, binary_round.
  destruct m as [|p|p]; [done| |];
    destruct (shl_align _ _ _) as [mz ez]; by apply binary_round_aux_not_nan.
Qed.

(** Adding a finite number to a number gives a number. *)
Lemma add_finite_not_nan x y :
  Double.is_nan x = false -> Double.is_finite y = true ->
  Double.is_nan (Double.add x y) = false.
Proof.
  destruct x as [[]|[]| |sx mx ex], y as [[]|[]| |sy my ey]; try done.
  intros _ _. apply binary_normalize_not_nan.
Qed.

(** ** The random walk *)

Section Walk.

Context {G : Type}.
Variable sample : forall d : draw, G -> answer d * G.

Lemma walk_draw_many qs g :
  runs_to sample (Bandit.walk qs) g (replicate (length qs) Bandit.walk_noise)
    (zip_with Double.add qs (fst (draw_many sample Bandit.walk_noise (length qs) g)))
    (snd (draw_many sample Bandit.walk_noise (length qs) g)).
Proof.
  revert g. induction qs as [|q qs IH]; intros g; [done|].
  cbn [length draw_many Bandit.walk].
  pose proof (runs_to_draw sample Bandit.walk_noise g) as Hd.
  destruct (sample Bandit.walk_noise g) as [x g1]. cbn [fst snd] in Hd.
  specialize (IH g1).
  destruct (draw_many sample Bandit.walk_noise (length qs) g1) as [xs g2].
  cbn [fst snd zip_with] in *.
  change (replicate (S (length qs)) Bandit.walk_noise)
    with ([Bandit.walk_noise] ++ replicate (length qs) Bandit.walk_noise).
  eapply runs_to_bind; [exact Hd|].
  rewrite <- (app_nil_r (replicate _ _)).
  eapply runs_to_bind; [exact IH|]. apply runs_to_ret.
Qed.

Lemma length_draw_many d n g : length (fst (draw_many sample d n g)) = n.
Proof.
  revert g. induction n as [|n IH]; intros g; [done|]. simpl.
  destruct (sample d g) as [x g1]. specialize (IH g1).
  destruct (draw_many sample d n g1) as [xs g2]. simpl in *. by rewrite IH.
Qed.

End Walk.

Lemma no_nan_zip_add (qs xs : list double) :
  no_nan qs -> Forall (fun x => Double.is_finite x = true) xs ->
  no_nan (zip_with Double.add qs xs).
Proof.
  intros Hq. revert xs. induction Hq as [|q qs Hq _ IH]; intros xs Hx; [constructor|].
  destruct Hx as [|x xs Hx Hxs]; [constructor|]. simpl. constructor.
  - by apply add_finite_not_nan.
  - by apply IH.
Qed.

(** X1. [random_walk] never fails: it makes one draw of the walk noise for
    each arm, in the order of the arms, and moves each mean by its own draw,
    so the number of arms is kept.  If the means are numbers and the noise
    drawn is finite, the means remain numbers, and [optimal_action] then
    returns the position of their first maximum. *)
Theorem random_walk_moves_each_mean {G : Type}
    (sample : forall d : draw, G -> answer d * G) (b : Bandit.t) (g : G) :
  let n := length (Bandit.q_true b) in
  let xs := fst (draw_many sample Bandit.walk_noise n g) in
  exists b',
    runs_to sample (Bandit.random_walk b) g (replicate n Bandit.walk_noise) b'
      (snd (draw_many sample Bandit.walk_noise n g)) /\
    Bandit.q_true b' = zip_with Double.add (Bandit.q_true b) xs /\
    length (Bandit.q_true b') = n /\
    (no_nan (Bandit.q_true b) -> Forall (fun x => Double.is_finite x = true) xs ->
     no_nan (Bandit.q_true b') /\
     (Bandit.q_true b <> [] ->
      first_max (Bandit.q_true b') (Bandit.optimal_action b'))).
Proof.
  intros n xs.
  exists {| Bandit.q_true := zip_with Double.add (Bandit.q_true b) xs |}.
  split; [|split; [reflexivity|split]].
  - unfold Bandit.random_walk.
    rewrite <- (app_nil_r (replicate n _)).
    eapply runs_to_bind; [apply walk_draw_many|]. apply runs_to_ret.
  - cbn [Bandit.q_true]. rewrite length_zip_with. subst xs.
    rewrite (length_draw_many sample Bandit.walk_noise). lia.
  - intros Hq Hx. cbn [Bandit.q_true Bandit.optimal_action].
    pose proof (no_nan_zip_add _ _ Hq Hx) as Hnn. split; [done|].
    intros Hne. apply max_element_first_max; [|done].
    intros E. apply (f_equal length) in E. rewrite length_zip_with in E.
    subst xs n. rewrite (length_draw_many sample Bandit.walk_noise) in E.
    destruct (Bandit.q_true b); [done|]. cbn [length] in E. lia.
Qed.

Lemma random_walk_moves_each_mean_witness :
  exists b',
    run Tape.sample (Bandit.random_walk Bandit.new) [3; -1; 4; 1; -5; 9; 2; 6; 5; 3] =
      Some (b', []) /\
    no_nan (Bandit.q_true b') /\
    first_max (Bandit.q_true b') (Bandit.optimal_action b').
Proof.
  destruct (random_walk_moves_each_mean Tape.sample Bandit.new
              [3; -1; 4; 1; -5; 9; 2; 6; 5; 3]) as (b' & [Hrun _] & _ & _ & H).
  exists b'. split; [exact Hrun|].
  destruct H as [Hnn Hmax].
  - repeat constructor.
  - vm_compute. repeat constructor.
  - split; [exact Hnn|]. apply Hmax. discriminate.
Defined.

(** ** [max_element] and NaN *)

Lemma max_element_from_not_nan rest : forall (v : list double) largest vl i,
  v !! largest = Some vl -> Double.is_nan vl = false -> drop i v = rest ->
  exists y, v !! max_element_from largest vl i rest = Some y /\ Double.is_nan y = false.
Proof.
  induction rest as [|x rest IH]; intros v largest vl i Hl Hvl Hdrop; simpl; [eauto|].
  assert (Hi : v !! i = Some x).
  { rewrite <- (Nat.add_0_r i), <- lookup_drop, Hdrop. done. }
  assert (Hrest : drop (S i) v = rest).
  { rewrite (drop_S _ _ _ Hi) in Hdrop. by injection Hdrop. }
  destruct (Double.ltb vl x) eqn:Hcmp.
  - apply (IH v); [done| |done]. by destruct vl, x.
  - by apply (IH v).
Qed.

Lemma max_element_from_nan rest : forall largest vl i,
  Double.is_nan vl = true -> max_element_from largest vl i rest = largest.
Proof.
  induction rest as [|x rest IH]; intros largest vl i Hvl; simpl; [done|].
  replace (Double.ltb vl x) with false by (by destruct vl).
  by apply IH.
Qed.

(** X2. On a vector that is not empty, [max_element] returns a position
    inside the vector, also when some elements are NaN.  A NaN in the first
    position is returned as the maximum whatever follows it; if the first
    element is a number, the position returned holds a number: a NaN
    elsewhere is never chosen. *)
Theorem max_element_with_nan (x : double) (rest : list double) :
  0 <= max_element (x :: rest) < Z.of_nat (length (x :: rest)) /\
  (Double.is_nan x = true -> max_element (x :: rest) = 0) /\
  (Double.is_nan x = false ->
   exists y, vec_get (x :: rest) (max_element (x :: rest)) = Some y /\
             Double.is_nan y = false).
Proof.
  split; [by apply max_element_range|]. split.
  - intros Hx. unfold max_element. by rewrite max_element_from_nan.
  - intros Hx. unfold max_element. rewrite vec_get_of_nat.
    by apply max_element_from_not_nan.
Qed.

Lemma max_element_with_nan_witness :
  max_element [S754_nan; Double.one; Double.tenth] = 0 /\
  max_element [Double.tenth; S754_nan; Double.one] = 2.
Proof.
  split.
  - apply (max_element_with_nan S754_nan [Double.one; Double.tenth]). reflexivity.
  - reflexivity.
Defined.

(** ** Reset *)





(** ** Where the updates and the reward are defined *)

(** X4. The updates and [get_reward] index their vectors without a check:
    they are defined exactly for the actions of [0, k) (and, for the
    sample-average agent, a count that can still be incremented); any other
    action is undefined behaviour. *)
Theorem update_defined_iff (action : Z) (reward : double) :
  (forall s, sa_shape s ->
     is_Some (SampleAverageAgent.update action reward s) <->
     0 <= action < k /\
     exists c, vec_get (SampleAverageAgent.counts s) action = Some c /\ c < INT_MAX) /\
  (forall s, css_shape s ->
     is_Some (ConstantStepSizeAgent.update action reward s) <-> 0 <= action < k) /\
  (forall G (sample : forall d : draw, G -> answer d * G) b g,
     Z.of_nat (length (Bandit.q_true b)) = k ->
     is_Some (run sample (Bandit.get_reward b action) g) <-> 0 <= action < k).
Proof.
  split; [|split].
  - intros s [HQ Hc]. split.
    + intros [s' (c & q & counts' & Q' & Hgc & Hlt & _)%sa_update_inv].
      apply vec_get_lt in Hgc as Hr. split; [lia|eauto].
    + intros [Ha (c & Hgc & Hlt)].
      destruct (vec_get_in_range (Agent.Q (SampleAverageAgent.base s)) action) as [q Hgq];
        [lia|].
      destruct (sa_update_defined action reward s c q) as (? & ? & _ & _ & ->); eauto.
  - intros s HQ. unfold css_shape in HQ. split.
    + intros [s' Hu]. unfold ConstantStepSizeAgent.update in Hu.
      destruct (vec_get _ action) as [q|] eqn:Hgq; [|done].
      apply vec_get_lt in Hgq. lia.
    + intros Ha.
      destruct (vec_get_in_range (Agent.Q (ConstantStepSizeAgent.base s)) action) as [q Hgq];
        [lia|].
      destruct (css_update_defined action reward s q) as (? & _ & ->); eauto.
  - intros G sample b g Hb. unfold Bandit.get_reward. rewrite run_bind, run_defined. split.
    + intros Hs. destruct (vec_get (Bandit.q_true b) action) as [q|] eqn:Hq.
      * apply vec_get_lt in Hq. lia.
      * simpl in Hs. by destruct Hs.
    + intros Ha. destruct (vec_get_in_range (Bandit.q_true b) action) as [q ->]; [lia|].
      simpl. destruct (sample Bandit.reward_noise g). simpl. eauto.
Qed.

Lemma update_defined_iff_witness :
  SampleAverageAgent.update 10 Double.one (SampleAverageAgent.new Double.tenth) = None /\
  is_Some (ConstantStepSizeAgent.update 9 Double.one
             (ConstantStepSizeAgent.new Double.tenth Double.tenth)).
Proof.
  destruct (update_defined_iff 10 Double.one) as (Hsa & _).
  destruct (update_defined_iff 9 Double.one) as (_ & Hcss & _).
  split.
  - destruct (SampleAverageAgent.update 10 Double.one _) as [s|] eqn:E; [|reflexivity].
    assert (0 <= 10 < k) as Hk; [|unfold k in Hk; lia].
    apply (Hsa (SampleAverageAgent.new Double.tenth)); [done|]. rewrite E. eauto.
  - apply Hcss; done.
Defined.

(** ** A reward equal to the estimate *)

Lemma insert_same {A} (l : list A) (i : Z) (x : A) (l' : list A) :
  vec_get l i = Some x -> vec_set l i x = Some l' -> l' = l.
Proof.
  intros [_ Hx]%vec_get_Some [_ ->]%vec_set_inv. by apply list_insert_id.
Qed.

(** X5. A reward equal to the current estimate of its action leaves the
    estimates as they are, for a finite estimate other than [-0.0]: the
    sample-average agent only counts the update, the constant step-size
    agent (of finite step size) is unchanged altogether. *)
Theorem update_with_own_estimate (action : Z) (q : double) :
  Double.is_finite q = true -> q <> S754_zero true ->
  (forall s c,
     vec_get (SampleAverageAgent.counts s) action = Some c -> 0 <= c < INT_MAX ->
     vec_get (Agent.Q (SampleAverageAgent.base s)) action = Some q ->
     exists s',
       SampleAverageAgent.update action q s = Some s' /\
       SampleAverageAgent.base s' = SampleAverageAgent.base s /\
       vec_get (SampleAverageAgent.counts s') action = Some (c + 1)) /\
  (forall s,
     Double.is_finite (ConstantStepSizeAgent.alpha s) = true ->
     vec_get (Agent.Q (ConstantStepSizeAgent.base s)) action = Some q ->
     ConstantStepSizeAgent.update action q s = Some s).
Proof.
  intros Hf Hz. split.
  - intros s c Hgc Hc Hgq.
    destruct (sa_update_defined action q s c q) as (counts' & Q' & Hsc & HsQ & ->);
      [done|lia|done|].
    eexists. split; [done|]. simpl. rewrite (vec_get_set_eq _ _ _ _ Hsc). split; [|done].
    destruct (of_int_count (c + 1)) as (m & e & Hn); [lia|].
    assert (Double.add q (Double.div (Double.sub q q) (Double.of_int (c + 1))) = q) as Hq.
    { rewrite Hn. destruct q as [[]| | |sq mq eq]; try done.
      rewrite sub_diag_finite. reflexivity. }
    rewrite Hq in HsQ. rewrite (insert_same _ _ _ _ Hgq HsQ).
    by destruct (SampleAverageAgent.base s).
  - intros s Ha Hgq.
    destruct (css_update_defined action q s q) as (Q' & HsQ & ->); [done|].
    assert (Double.add q (Double.mul (ConstantStepSizeAgent.alpha s) (Double.sub q q)) = q)
      as Hq.
    { destruct q as [[]| | |sq mq eq]; try done.
      - destruct (ConstantStepSizeAgent.alpha s) as [[]| | |[] ma ea]; done.
      - rewrite sub_diag_finite.
        destruct (ConstantStepSizeAgent.alpha s) as [[]| | |[] ma ea]; done. }
    rewrite Hq in HsQ. rewrite (insert_same _ _ _ _ Hgq HsQ).
    destruct s as [[Qs e b] a]. reflexivity.
Qed.

Lemma update_with_own_estimate_witness :
  ConstantStepSizeAgent.update 0 Double.zero
    (ConstantStepSizeAgent.new Double.tenth Double.tenth) =
  Some (ConstantStepSizeAgent.new Double.tenth Double.tenth).
Proof.
  destruct (update_with_own_estimate 0 Double.zero) as [_ H]; [reflexivity|discriminate|].
  apply H; reflexivity.
Defined.

(** ** Counting the updates *)

Lemma total_insert (l : list Z) (i : nat) (c c' : Z) :
  l !! i = Some c -> total (<[i := c']> l) = total l - c + c'.
Proof.
  revert i. induction l as [|x l IH]; intros [|i] Hi; simpl in *; try done.
  - injection Hi as ->. lia.
  - rewrite (IH i Hi). lia.
Qed.

Lemma sa_run_snoc us u s :
  sa_run (us ++ [u]) s =
    (s' ← sa_run us s; SampleAverageAgent.update (fst u) (snd u) s').
Proof. unfold sa_run. by rewrite foldl_app. Qed.

Lemma occurrences_snoc action us u :
  occurrences action (us ++ [u]) =
    occurrences action us + (if decide (fst u = action) then 1 else 0).
Proof.
  unfold occurrences. rewrite filter_app, length_app, Nat2Z.inj_add. f_equal.
  rewrite filter_cons, filter_nil. by destruct (decide (fst u = action)).
Qed.

Lemma occurrences_le action us : 0 <= occurrences action us <= Z.of_nat (length us).
Proof. unfold occurrences. pose proof (length_filter (fun u => fst u = action) us). lia. Qed.

Lemma sa_run_counts eps us :
  (Forall (fun u => 0 <= fst u < k) us -> Z.of_nat (length us) <= INT_MAX ->
   is_Some (sa_run us (SampleAverageAgent.new eps))) /\
  (forall s, sa_run us (SampleAverageAgent.new eps) = Some s ->
     sa_shape s /\
     total (SampleAverageAgent.counts s) = Z.of_nat (length us) /\
     forall action, 0 <= action < k ->
       vec_get (SampleAverageAgent.counts s) action = Some (occurrences action us)).
Proof.
  induction us as [|u us [IHdef IHval]] using rev_ind.
  - split; [by eexists|]. intros s [= <-]. split; [done|]. split; [done|].
    intros action Ha. apply (vec_get_replicate_in_range 10 0). unfold k in Ha. lia.
  - split.
    + intros [Hus [Hu _]%Forall_cons]%Forall_app Hlen.
      rewrite length_app in Hlen. simpl in Hlen.
      destruct IHdef as [s Hs]; [done|lia|].
      destruct (IHval s Hs) as ([HQ Hc] & _ & Hocc).
      rewrite sa_run_snoc, Hs. simpl.
      destruct (vec_get_in_range (Agent.Q (SampleAverageAgent.base s)) (fst u))
        as [q Hgq]; [lia|].
      pose proof (occurrences_le (fst u) us).
      destruct (sa_update_defined (fst u) (snd u) s _ q (Hocc _ Hu))
        as (? & ? & _ & _ & ->); [lia|done|]. eauto.
    + intros s' Hs'. rewrite sa_run_snoc in Hs'.
      destruct (sa_run us (SampleAverageAgent.new eps)) as [s|]; [|done]. simpl in Hs'.
      destruct (IHval s eq_refl) as ([HQ Hc] & Htot & Hocc).
      apply sa_update_inv in Hs'
        as (c & q & counts' & Q' & Hgc & Hlt & Hgq & Hsc & HsQ & ->).
      apply vec_get_lt in Hgc as Hr.
      split; [|split]; simpl.
      * unfold sa_shape. simpl.
        by rewrite (vec_set_length _ _ _ _ Hsc), (vec_set_length _ _ _ _ HsQ).
      * pose proof Hsc as [_ ->]%vec_set_inv.
        apply vec_get_Some in Hgc as [_ Hgc].
        rewrite (total_insert _ _ c _ Hgc), Htot, length_app. simpl. lia.
      * intros action Ha. rewrite occurrences_snoc.
        destruct (decide (fst u = action)) as [<-|Hne].
        -- rewrite (vec_get_set_eq _ _ _ _ Hsc). rewrite (Hocc (fst u)) in Hgc by lia.
           by injection Hgc as <-.
        -- rewrite (vec_get_set_ne _ _ _ _ _ Hsc) by done.
           rewrite (Hocc action Ha). f_equal. lia.
Qed.

(** X6. After any sequence of updates of a new sample-average agent, the
    count of each action is the number of updates of that action, and the
    counts add up to the number of updates.  The sequence is defined as
    soon as its actions are in [0, k) and it is not longer than [INT_MAX]. *)
Theorem counts_count_updates (eps : double) (us : list (Z * double)) :
  Forall (fun u => 0 <= fst u < k) us -> Z.of_nat (length us) <= INT_MAX ->
  exists s,
    sa_run us (SampleAverageAgent.new eps) = Some s /\
    total (SampleAverageAgent.counts s) = Z.of_nat (length us) /\
    forall action, 0 <= action < k ->
      vec_get (SampleAverageAgent.counts s) action = Some (occurrences action us).
Proof.
  intros Hus Hlen. destruct (sa_run_counts eps us) as [Hdef Hval].
  destruct Hdef as [s Hs]; [done..|].
  destruct (Hval s Hs) as (_ & Htot & Hocc). eauto.
Qed.

Lemma counts_count_updates_witness :
  exists s,
    sa_run [(2, Double.one); (7, Double.tenth); (2, Double.zero)]
      (SampleAverageAgent.new Double.tenth) = Some s /\
    vec_get (SampleAverageAgent.counts s) 2 = Some 2.
Proof.
  destruct (counts_count_updates Double.tenth
              [(2, Double.one); (7, Double.tenth); (2, Double.zero)])
    as (s & Hs & _ & Hocc).
  - repeat constructor; done.
  - done.
  - exists s. split; [exact Hs|]. apply (Hocc 2). done.
Defined.

(** ** The distribution of the action chosen *)

(** X7. [choose_action] of an agent whose [bern] has parameter [p] returns
    each action [x] of [0, 9] with probability [p / 10], plus [1 - p] for
    the position of the first largest estimate. *)
Theorem choose_action_distribution (a : Agent.t) (p : Q) (x : Z) :
  Double.to_Q (Agent.bern a) = Some p -> (0 <= p <= 1)%Q -> 0 <= x <= 9 ->
  exists q,
    prob (returns x) [] (Agent.choose_action a) = Some q /\
    (q == p * (1 # 10) + (1 - p) * (if Z.eqb (max_element (Agent.Q a)) x then 1 else 0))%Q.
Proof.
  intros Hp [H0 H1] Hx. unfold Agent.choose_action, sample_draw, mbind, Rand_bind.
  cbn [bind prob]. rewrite Hp. cbn [mbind option_bind].
  apply Qle_bool_iff in H0, H1. rewrite H0, H1. cbn [andb].
  assert (x = 0 \/ x = 1 \/ x = 2 \/ x = 3 \/ x = 4 \/ x = 5 \/ x = 6 \/ x = 7 \/
          x = 8 \/ x = 9) as Hc by lia.
  destruct Hc as [->|[->|[->|[->|[->|[->|[->|[->|[->| ->]]]]]]]]];
    (match goal with
     | |- ex (fun q => (?X ≫= _) = _ /\ _) => change X with (Some (1 # 10))
     end;
     cbn [mbind option_bind];
     eexists; split; [reflexivity|]; unfold returns;
     destruct (Z.eqb (max_element (Agent.Q a)) _); ring).
Qed.

Lemma choose_action_distribution_witness :
  exists q,
    prob (returns 3) [] (Agent.choose_action (Agent.new Double.tenth)) = Some q /\
    (q == (8106479329266893 # 9007199254740992) * (1 # 10))%Q.
Proof.
  destruct (choose_action_distribution (Agent.new Double.tenth)
              (8106479329266893 # 9007199254740992) 3) as (q & Hq & Heq);
    [reflexivity|split; discriminate|lia|].
  exists q. split; [exact Hq|]. rewrite Heq.
  change (Z.eqb (max_element (Agent.Q (Agent.new Double.tenth))) 3) with false.
  cbv iota. ring.
Defined.

(** ** How many draws the experiment makes *)

Lemma count_draws_app f tr1 tr2 :
  count_draws f (tr1 ++ tr2) = count_draws f tr1 + count_draws f tr2.
Proof. unfold count_draws. rewrite List.filter_app, length_app. lia. Qed.

Lemma step_draws_counts tr :
  step_draws tr ->
  count_draws is_normal tr = 12 /\ count_draws is_bernoulli tr = 2 /\
  0 <= count_draws is_uniform tr <= 2 /\
  Z.of_nat (length tr) = 14 + count_draws is_uniform tr.
Proof.
  intros (sa & css & -> & [-> | ->] & [-> | ->]); vm_compute; repeat split; congruence.
Qed.

Lemma concat_step_draws_counts chunks :
  Forall step_draws chunks ->
  count_draws is_normal (concat chunks) = 12 * Z.of_nat (length chunks) /\
  count_draws is_bernoulli (concat chunks) = 2 * Z.of_nat (length chunks) /\
  0 <= count_draws is_uniform (concat chunks) <= 2 * Z.of_nat (length chunks) /\
  Z.of_nat (length (concat chunks)) =
    14 * Z.of_nat (length chunks) + count_draws is_uniform (concat chunks).
Proof.
  induction 1 as [|tr chunks Htr _ (IHn & IHb & IHu & IHl)]; [done|].
  destruct (step_draws_counts tr Htr) as (Hn & Hb & Hu & Hl).
  cbn [concat]. rewrite !count_draws_app, !length_app. cbn [length]. lia.
Qed.

(** X8. Whatever branches [choose_action] takes, the experiment makes
    exactly 12 normal draws and 2 Bernoulli draws in each time step, and at
    most 2 uniform draws: between 14 and 16 draws for each of the
    [num_runs * num_steps] time steps. *)
Theorem draws_per_experiment {G : Type} (sample : forall d : draw, G -> answer d * G)
    (g : G) :
  lawful sample ->
  let tr := trace sample run_exp g in
  let steps := num_runs * num_steps in
  count_draws is_normal tr = 12 * steps /\
  count_draws is_bernoulli tr = 2 * steps /\
  0 <= count_draws is_uniform tr <= 2 * steps /\
  Z.of_nat (length tr) = 14 * steps + count_draws is_uniform tr.
Proof.
  intros Hl tr steps. subst tr steps.
  destruct (run_exp_runs sample Hl g)
    as (chunks & s & t & g' & _ & [_ Htr] & _ & _ & Hlen & Hall).
  rewrite Htr, <- Hlen. by apply concat_step_draws_counts.
Qed.

Lemma draws_per_experiment_witness :
  count_draws is_bernoulli (trace Tape.sample run_exp [1; 6; 1; 8]) =
    2 * (num_runs * num_steps).
Proof.
  pose proof (draws_per_experiment Tape.sample [1; 6; 1; 8] tape_lawful) as H.
  cbv zeta in H. destruct H as [_ H]. destruct H as [H _]. exact H.
Defined.

(** ** The values of the optimal-action table *)

Lemma ltb_trans a b c :
  Double.ltb a b = true -> Double.ltb b c = true -> Double.ltb a c = true.
Proof. order_by_cases3 a b c. Qed.

Lemma percent_step_all : forallb percent_step_check (seqZ 0 num_runs) = true.
Proof. vm_compute. reflexivity. Qed.

Lemma percent_increasing h h' :
  0 <= h < h' -> h' <= num_runs ->
  Double.ltb (percent num_runs h) (percent num_runs h') = true.
Proof.
  intros Hh Hh'. assert (exists d : nat, h' = h + 1 + Z.of_nat d) as [d ->].
  { exists (Z.to_nat (h' - h - 1)). lia. }
  induction d as [|d IH].
  - rewrite Z.add_0_r. apply (forallb_seqZ _ _ _ h percent_step_all). lia.
  - eapply ltb_trans; [apply IH; lia|].
    replace (h + 1 + Z.of_nat (S d)) with (h + 1 + Z.of_nat d + 1) by lia.
    apply (forallb_seqZ percent_step_check _ _ _ percent_step_all). lia.
Qed.

(** X9. Every value of the optimal-action table is the percentage
    [h / num_runs * 100] of a whole number [h] of hits between 0 and
    [num_runs], and on these the percentage is strictly increasing: more
    hits give a larger value, and different numbers of hits give different
    values. *)
Theorem optimal_table_values {G : Type} (sample : forall d : draw, G -> answer d * G)
    (g : G) :
  lawful sample ->
  (exists t g',
     run sample run_exp g = Some (t, g') /\
     forall i row, vec_get (optimal_file t) i = Some row ->
       exists h1 h2,
         0 <= h1 <= num_runs /\ 0 <= h2 <= num_runs /\
         row = (i, percent num_runs h1, percent num_runs h2)) /\
  (forall h h', 0 <= h < h' -> h' <= num_runs ->
     Double.ltb (percent num_runs h) (percent num_runs h') = true).
Proof.
  intros Hl. split; [|apply percent_increasing].
  destruct (run_exp_runs sample Hl g)
    as (chunks & s & t & g' & _ & [Hrun _] & (Hok & Hsa & Hcs) & Ht & _).
  destruct (write_tables_spec num_runs num_steps s) as (t' & Ht' & _ & Hlo & Hrows);
    [done|done|].
  rewrite Ht in Ht'. injection Ht' as <-.
  exists t, g'. split; [exact Hrun|]. intros i row Hrow.
  apply vec_get_lt in Hrow as Hi. rewrite Hlo in Hi.
  destruct (Hrows i Hi) as (r1 & r2 & o1 & o2 & _ & _ & Ho1 & Ho2 & _ & Hopt).
  rewrite Hopt in Hrow. injection Hrow as <-.
  destruct (proj1 (hits_upto_lookup _ _) Hsa i o1 Ho1) as (h1 & Hh1 & ->).
  destruct (proj1 (hits_upto_lookup _ _) Hcs i o2 Ho2) as (h2 & Hh2 & ->).
  by exists h1, h2.
Qed.

Lemma optimal_table_values_witness :
  Double.ltb (percent num_runs 999) (percent num_runs 1000) = true.
Proof.
  destruct (optimal_table_values Tape.sample [1; 6; 1; 8] tape_lawful) as [_ H].
  apply H; [split|]; [discriminate|reflexivity|discriminate].
Defined.

(** ** What a time step changes *)

Lemma total_counts_update action reward s s' :
  SampleAverageAgent.update action reward s = Some s' ->
  total (SampleAverageAgent.counts s') = total (SampleAverageAgent.counts s) + 1.
Proof.
  intros (c & q & counts' & Q' & Hgc & _ & _ & Hsc & _ & ->)%sa_update_inv. simpl.
  apply vec_set_inv in Hsc as [_ ->]. apply vec_get_Some in Hgc as [_ Hgc].
  rewrite (total_insert _ _ c _ Hgc). lia.
Qed.

Lemma vec_add_other v i x v' j :
  vec_add v i x = Some v' -> j <> i -> vec_get v' j = vec_get v j.
Proof.
  unfold vec_add. intros H Hne. destruct (vec_get v i) as [y|]; [|done].
  simpl in H. by apply (vec_get_set_ne _ _ _ _ _ H).
Qed.

Section StepEffect.

Context {G : Type}.
Variable sample : forall d : draw, G -> answer d * G.
Hypothesis sample_lawful : lawful sample.

Lemma step_body_effect T i s g :
  0 <= i < T -> exp_ok T s ->
  Forall (fun c => c < INT_MAX) (SampleAverageAgent.counts (sa_agent s)) ->
  exists s' g' a1 r1 a2 r2,
    run sample (step_body i s) g = Some (s', g') /\
    0 <= a1 < k /\ 0 <= a2 < k /\
    length (Bandit.q_true (bandit s')) = length (Bandit.q_true (bandit s)) /\
    SampleAverageAgent.update a1 r1 (sa_agent s) = Some (sa_agent s') /\
    ConstantStepSizeAgent.update a2 r2 (css_agent s) = Some (css_agent s') /\
    vec_add (sa_rewards s) i r1 = Some (sa_rewards s') /\
    vec_add (css_rewards s) i r2 = Some (css_rewards s') /\
    vec_add (sa_optimal s) i (hit a1 (Bandit.optimal_action (bandit s'))) =
      Some (sa_optimal s') /\
    vec_add (css_optimal s) i (hit a2 (Bandit.optimal_action (bandit s'))) =
      Some (css_optimal s').
Proof.
  intros Hi [Hb ok_sa0 ok_css0 Hsab Hcssb Hlr1 Hlr2 Hlo1 Hlo2] Hcounts.
  destruct (walk_runs sample (Bandit.q_true (bandit s)) g) as (qs & g1 & Hwalk & Hqs).
  set (b := {| Bandit.q_true := qs |}).
  destruct (agent_turn_runs sample sample_lawful b (Bandit.optimal_action b) i
              (sa_agent s) (sa_rewards s) (sa_optimal s) g1)
    as (tr1 & a1 & r1 & sa' & x1 & o1 & sa_r & sa_o & g2 &
        Hrun1 & _ & Ha1 & Hu1 & Hgr1 & Hsr1 & Hgo1 & Hso1);
    [simpl; lia|apply ok_sa0|done| |lia|lia|].
  { intros action reward Ha. destruct ok_sa0 as [HQ Hc].
    destruct (vec_get_in_range (SampleAverageAgent.counts (sa_agent s)) action)
      as [c Hgc]; [lia|].
    destruct (vec_get_in_range (Agent.Q (SampleAverageAgent.base (sa_agent s))) action)
      as [q Hgq]; [lia|].
    assert (c < INT_MAX) as Hci.
    { apply vec_get_Some in Hgc as [_ Hgc].
      by eapply Forall_lookup_1 in Hcounts; [|exact Hgc]. }
    destruct (sa_update_defined action reward (sa_agent s) c q)
      as (? & ? & _ & _ & Hu); [done..|]. simpl. rewrite Hu. done. }
  destruct (agent_turn_runs sample sample_lawful b (Bandit.optimal_action b) i
              (css_agent s) (css_rewards s) (css_optimal s) g2)
    as (tr2 & a2 & r2 & css' & x2 & o2 & css_r & css_o & g3 &
        Hrun2 & _ & Ha2 & Hu2 & Hgr2 & Hsr2 & Hgo2 & Hso2);
    [simpl; lia|apply ok_css0|done| |lia|lia|].
  { intros action reward Ha. unfold css_shape in ok_css0.
    destruct (vec_get_in_range (Agent.Q (ConstantStepSizeAgent.base (css_agent s))) action)
      as [q Hgq]; [lia|].
    destruct (css_update_defined action reward (css_agent s) q) as (? & _ & Hu); [done|].
    simpl. rewrite Hu. done. }
  simpl in Hu1, Hu2.
  eexists _, g3, a1, r1, a2, r2. split.
  - refine (proj1 (_ : runs_to sample _ g _ _ g3)).
    unfold step_body, Bandit.random_walk.
    eapply runs_to_bind.
    { eapply runs_to_bind; [exact Hwalk|]. apply runs_to_ret. }
    eapply runs_to_bind; [exact Hrun1|]. cbn beta iota.
    eapply runs_to_bind; [exact Hrun2|]. cbn beta iota.
    apply runs_to_ret.
  - cbn [bandit sa_agent css_agent sa_rewards css_rewards sa_optimal css_optimal].
    unfold vec_add. rewrite Hgr1, Hgr2, Hgo1, Hgo2. cbn [mbind option_bind].
    repeat (split; [done|]). done.
Qed.

End StepEffect.

(** X10. A time step that starts from a well-shaped state of the
    experiment with counts that can be incremented is defined.  Each agent
    is updated once, with an action of [0, k) and with the very reward that
    is added to its row [step] of the reward table; its hit is counted
    against the best action of the bandit after the walk.  The counts of
    the sample-average agent grow by one in total, and no other row of the
    four tables changes. *)
Theorem time_step_effect {G : Type} (sample : forall d : draw, G -> answer d * G)
    (T step : Z) (s : exp_state) (g : G) :
  lawful sample -> 0 <= step < T -> exp_ok T s ->
  Forall (fun c => c < INT_MAX) (SampleAverageAgent.counts (sa_agent s)) ->
  exists s' g' a1 r1 a2 r2,
    run sample (step_body step s) g = Some (s', g') /\
    0 <= a1 < k /\ 0 <= a2 < k /\
    SampleAverageAgent.update a1 r1 (sa_agent s) = Some (sa_agent s') /\
    ConstantStepSizeAgent.update a2 r2 (css_agent s) = Some (css_agent s') /\
    vec_add (sa_rewards s) step r1 = Some (sa_rewards s') /\
    vec_add (css_rewards s) step r2 = Some (css_rewards s') /\
    vec_add (sa_optimal s) step (hit a1 (Bandit.optimal_action (bandit s'))) =
      Some (sa_optimal s') /\
    vec_add (css_optimal s) step (hit a2 (Bandit.optimal_action (bandit s'))) =
      Some (css_optimal s') /\
    total (SampleAverageAgent.counts (sa_agent s')) =
      total (SampleAverageAgent.counts (sa_agent s)) + 1 /\
    forall j, j <> step ->
      vec_get (sa_rewards s') j = vec_get (sa_rewards s) j /\
      vec_get (css_rewards s') j = vec_get (css_rewards s) j /\
      vec_get (sa_optimal s') j = vec_get (sa_optimal s) j /\
      vec_get (css_optimal s') j = vec_get (css_optimal s) j.
Proof.
  intros Hl Hi Hok Hc.
  destruct (step_body_effect sample Hl T step s g Hi Hok Hc)
    as (s' & g' & a1 & r1 & a2 & r2 & Hrun & Ha1 & Ha2 & _ & Hu1 & Hu2 &
        Hr1 & Hr2 & Ho1 & Ho2).
  exists s', g', a1, r1, a2, r2. repeat (split; [done|]).
  split; [by apply (total_counts_update a1 r1)|].
  intros j Hj. repeat split; eapply vec_add_other; eauto.
Qed.

Lemma time_step_effect_witness :
  exists s' g',
    run Tape.sample (step_body 0 (exp_init 3)) [5; 3; 1; 2; 4; 6; 8; 0; 7; 9; 15; 1; 3; 2; 0] =
      Some (s', g') /\
    total (SampleAverageAgent.counts (sa_agent s')) = 1.
Proof.
  destruct (time_step_effect Tape.sample 3 0 (exp_init 3)
              [5; 3; 1; 2; 4; 6; 8; 0; 7; 9; 15; 1; 3; 2; 0] tape_lawful)
    as (s' & g' & a1 & r1 & a2 & r2 & Hrun & _ & _ & _ & _ & _ & _ & _ & _ & Htot & _).
  - lia.
  - split; first [reflexivity | split; reflexivity].
  - repeat constructor.
  - exists s', g'. split; [exact Hrun|exact Htot].
Defined.

(** ** The counts at the end of the experiment *)

Lemma total_replicate_0 n : total (replicate n 0) = 0.
Proof.
  induction n as [|n IH]; [done|]. cbn [replicate total foldr].
  fold (total (replicate n 0)). by rewrite IH.
Qed.

Section Counts.

Context {G : Type}.
Variable sample : forall d : draw, G -> answer d * G.
Hypothesis sample_lawful : lawful sample.

Lemma run_body_counts T n s g :
  0 <= n < num_runs -> 0 <= T <= INT_MAX -> exp_inv T n s ->
  exists s' g',
    run sample (run_body T n s) g = Some (s', g') /\
    exp_inv T (n + 1) s' /\
    total (SampleAverageAgent.counts (sa_agent s')) = T.
Proof.
  intros Hn HT Hinv. unfold run_body.
  destruct (for_range_runs sample
              (fun i s => run_inv T n i s /\
                          total (SampleAverageAgent.counts (sa_agent s)) = i)
              (fun _ => True) step_body (Z.to_nat T) 0 (reset_all s) g)
    as (chunks & s' & g' & [Hrun _] & [Hend Htot] & _).
  { split; [by apply reset_all_inv|]. simpl. apply total_replicate_0. }
  { intros j s1 g1 Hj [Hs1 Htot1].
    destruct (step_body_runs sample sample_lawful T n j s1 g1)
      as (tr & s2 & g2 & Hr & Hinv2 & _); [lia..|done|].
    destruct (step_body_effect sample sample_lawful T j s1 g1)
      as (s3 & g3 & a1 & r1 & _ & _ & Hr' & _ & _ & _ & Hu1 & _); [lia|apply Hs1| |].
    { destruct Hs1 as (_ & Hc & _). eapply Forall_impl; [exact Hc|]. simpl. lia. }
    destruct Hr as [Hr Htr]. rewrite Hr in Hr'. injection Hr' as <- <-.
    exists tr, s2, g2. split; [done|]. split; [|done]. split; [done|].
    rewrite (total_counts_update _ _ _ _ Hu1). lia. }
  exists s', g'. split; [done|].
  replace (0 + Z.of_nat (Z.to_nat T)) with T in * by lia.
  split; [by apply run_inv_end|done].
Qed.

Lemma simulate_counts R T g :
  1 <= R <= num_runs -> 0 <= T <= INT_MAX ->
  exists s g',
    run sample (simulate R T) g = Some (s, g') /\
    total (SampleAverageAgent.counts (sa_agent s)) = T.
Proof.
  intros HR HT. unfold simulate.
  destruct (for_range_runs sample
              (fun n s => 0 <= n <= R /\ exp_inv T n s /\
                 (1 <= n -> total (SampleAverageAgent.counts (sa_agent s)) = T))
              (fun _ => True) (run_body T) (Z.to_nat R) 0 (exp_init T) g)
    as (cs & s & g' & [Hrun Htr] & (Hn & _ & Htot) & _).
  { split; [lia|]. split; [apply exp_init_inv; lia|lia]. }
  { intros n s1 g1 Hn (_ & Hs1 & _).
    destruct (run_body_counts T n s1 g1) as (s2 & g2 & Hr & Hi & Htot); [lia|lia|done|].
    exists (trace sample (run_body T n s1) g1), s2, g2.
    split; [by split|]. split; [|done]. split; [lia|]. split; [done|]. done. }
  exists s, g'. split; [done|]. apply Htot. lia.
Qed.

End Counts.

(** X11. When the experiment ends, the counts of the sample-average agent
    add up to [num_steps]: [reset] cleared them at the start of the last
    run and every time step of that run counted exactly one action. *)
Theorem counts_after_experiment {G : Type} (sample : forall d : draw, G -> answer d * G)
    (g : G) :
  lawful sample ->
  exists s g',
    run sample (simulate num_runs num_steps) g = Some (s, g') /\
    total (SampleAverageAgent.counts (sa_agent s)) = num_steps.
Proof. intros Hl. by apply simulate_counts. Qed.

Lemma counts_after_experiment_witness :
  exists s g',
    run Tape.sample (simulate num_runs num_steps) [4; 2] = Some (s, g') /\
    total (SampleAverageAgent.counts (sa_agent s)) = num_steps.
Proof. exact (counts_after_experiment Tape.sample [4; 2] tape_lawful). Defined.
